(** * comment-to-issue-action: extraction, key codec and reconciliation

    A shallow embedding of the action's entry file ([extractComments],
    [generateIssueContent], [parseIssueKey], [fetchExistingIssues] and
    [run]) together with the properties of the reconciliation engine.

    Conventions of the embedding.
    - A JavaScript string is a [string]: its characters are the UTF-16 code
      units of the source text, taken in the range U+0000..U+00FF.
    - [prefixes] are plain words.  The pattern is built from the text
      [prefixes.join('|')], so a prefix is read as pattern source; the
      embedding gives the meaning of the pattern for words free of the
      pattern syntax characters (see [plain_prefix] and [plain_prefixes]).
      For other prefixes the pattern may match other text, [new RegExp] may
      throw a [SyntaxError], and a pattern that matches the empty string
      keeps the loop of [extractComments] from ending; every property that
      depends on how a prefix matches, or on the scan returning, is stated
      under the hypothesis [plain_prefixes prefixes = true].
    - The characters of a [string] are below U+0100, so the only line
      terminators at hand are the line feed and the carriage return; the
      separators U+2028 and U+2029, which end group 2 of the pattern as
      well, cannot occur in the texts of the embedding.
    - Array indices and line numbers are [nat]; the arithmetic on indices
      that may go below zero ([index - 5]) is done on [Z], as in the code. *)

From Stdlib Require Import ZArith NArith Ascii String DecimalString DecimalNat
  Sorted.
From stdpp Require Import base list strings gmap.

Local Open Scope string_scope.
Local Open Scope list_scope.

(** ** Strings *)

Module Str.

Definition LF : ascii := "010"%char.
Definition CR : ascii := "013"%char.
Definition colon : ascii := ":"%char.

Definition nl : string := String LF EmptyString.

(** [s.slice(n)] for [0 <= n]. *)
Fixpoint drop (n : nat) (s : string) : string :=
  match n, s with
  | O, _ => s
  | S _, EmptyString => EmptyString
  | S n', String _ s' => drop n' s'
  end.

(** The longest run of characters satisfying [f] at the head of [s]. *)
Fixpoint take_while (f : ascii -> bool) (s : string) : string :=
  match s with
  | EmptyString => EmptyString
  | String c s' => if f c then String c (take_while f s') else EmptyString
  end.

(** [s.split(sep)] for a one-character separator: never the empty array. *)
Fixpoint split (sep : ascii) (s : string) : list string :=
  match s with
  | EmptyString => [EmptyString]
  | String c s' =>
      if Ascii.eqb c sep then EmptyString :: split sep s'
      else match split sep s' with
           | [] => [String c EmptyString]
           | h :: t => String c h :: t
           end
  end.

(** [xs.join(sep)]. *)
Definition join (sep : string) (xs : list string) : string :=
  String.concat sep xs.

(** Is [p] a substring of [s]? *)
Fixpoint includes (p s : string) : bool :=
  String.prefix p s ||
  match s with
  | EmptyString => false
  | String _ s' => includes p s'
  end.

(** Do all the characters of [s] satisfy [f]? *)
Fixpoint every (f : ascii -> bool) (s : string) : bool :=
  match s with
  | EmptyString => true
  | String c s' => f c && every f s'
  end.

(** The template-literal rendering of a non-negative integer. *)
Definition of_nat (n : nat) : string :=
  NilZero.string_of_uint (Nat.to_uint n).

(** The characters matched by the class [\s] (below U+0100): TAB, LF, VT,
    FF, CR, SPACE and NO-BREAK SPACE. *)
Definition is_space (c : ascii) : bool :=
  let n := nat_of_ascii c in
  (Nat.leb 9 n && Nat.leb n 13) || Nat.eqb n 32 || Nat.eqb n 160.

(** The characters [.] does not match: the line terminators. *)
Definition is_line_terminator (c : ascii) : bool :=
  Ascii.eqb c LF || Ascii.eqb c CR.

Definition is_dot (c : ascii) : bool := negb (is_line_terminator c).

(** [s.trim()]: white space and line terminators removed at both ends. *)
Fixpoint trim_start (s : string) : string :=
  match s with
  | EmptyString => EmptyString
  | String c s' => if is_space c then trim_start s' else s
  end.

Fixpoint trim_end (s : string) : string :=
  match s with
  | EmptyString => EmptyString
  | String c s' =>
      match trim_end s' with
      | EmptyString => if is_space c then EmptyString else String c EmptyString
      | r => String c r
      end
  end.

Definition trim (s : string) : string := trim_end (trim_start s).

End Str.

(** ** Buffer: UTF-8 bytes and their base64 text *)

Module Buffer.

(** [Buffer.from(s)]: the UTF-8 bytes of the code units of [s]. *)
Definition utf8_unit (c : ascii) : list N :=
  let n := N_of_ascii c in
  if (n <? 128)%N then [n]
  else [N.lor 192 (N.shiftr n 6); N.lor 128 (N.land n 63)].

Fixpoint from (s : string) : list N :=
  match s with
  | EmptyString => []
  | String c s' => utf8_unit c ++ from s'
  end.

Definition alphabet : string :=
  "ABCDEFGHIJKLMNOPQRSTUVWXYZabcdefghijklmnopqrstuvwxyz0123456789+/".

Definition pad : ascii := "="%char.

Definition digit (n : N) : ascii :=
  match String.get (N.to_nat n) alphabet with
  | Some c => c
  | None => pad
  end.

(** [buf.toString('base64')]: three bytes give four digits, the last
    group is padded with [=]. *)
Fixpoint toBase64 (bs : list N) : string :=
  match bs with
  | [] => EmptyString
  | [a] =>
      String (digit (N.shiftr a 2))
        (String (digit (N.shiftl (N.land a 3) 4))
           (String pad (String pad EmptyString)))
  | [a; b] =>
      String (digit (N.shiftr a 2))
        (String (digit (N.lor (N.shiftl (N.land a 3) 4) (N.shiftr b 4)))
           (String (digit (N.shiftl (N.land b 15) 2))
              (String pad EmptyString)))
  | a :: b :: c :: rest =>
      String (digit (N.shiftr a 2))
        (String (digit (N.lor (N.shiftl (N.land a 3) 4) (N.shiftr b 4)))
           (String (digit (N.lor (N.shiftl (N.land b 15) 2) (N.shiftr c 6)))
              (String (digit (N.land c 63)) (toBase64 rest))))
  end.

End Buffer.

(** ** The comment pattern *)

Module RegExp.

(** The characters with a meaning in pattern source; a prefix free of
    them is matched literally. *)
Definition syntax_chars : string := "\^$.|?*+()[]{}".

Definition plain_char (c : ascii) : bool :=
  negb (Str.includes (String c EmptyString) syntax_chars).

Fixpoint plain_prefix (p : string) : bool :=
  match p with
  | EmptyString => true
  | String c p' => plain_char c && plain_prefix p'
  end.

(** The alternatives of the group [(p1|p2|...)].  [[].join('|')] is the
    empty source, so the group of an empty list is [()]. *)
Definition alternatives (prefixes : list string) : list string :=
  match prefixes with
  | [] => [EmptyString]
  | _ => prefixes
  end.

(** A successful match: the two groups and the length of the whole match. *)
Record Match := { group1 : string; group2 : string; matched : nat }.

(** The tail of the pattern behind the alternative [p]: a colon, a
    greedy run of white space, and group 2, a greedy run of characters
    other than line terminators.  [rest] is the text behind [p].  Nothing
    follows the two runs, so the first attempt succeeds once the colon is
    there. *)
Definition after_prefix (p rest : string) : option Match :=
  match rest with
  | String c rest' =>
      if Ascii.eqb c Str.colon then
        let ws := Str.take_while Str.is_space rest' in
        let body := Str.take_while Str.is_dot
                      (Str.drop (String.length ws) rest') in
        Some {| group1 := p; group2 := body;
                matched := String.length p + 1 + String.length ws
                           + String.length body |}
      else None
  | EmptyString => None
  end.

(** The pattern tried at the head of [s]: the alternatives in order, the
    next one when the rest of the pattern fails behind the current one.
    An alternative is compared with the text character by character: this
    is the meaning of the pattern when every alternative satisfies
    [plain_prefix]. *)
Fixpoint match_here (alts : list string) (s : string) : option Match :=
  match alts with
  | [] => None
  | p :: alts' =>
      if String.prefix p s then
        match after_prefix p (Str.drop (String.length p) s) with
        | Some m => Some m
        | None => match_here alts' s
        end
      else match_here alts' s
  end.

(** The leftmost position at or behind [pos] where the pattern matches;
    [s] is the text from [pos] on. *)
Fixpoint search (alts : list string) (s : string) (pos : nat)
  : option (nat * Match) :=
  match match_here alts s with
  | Some m => Some (pos, m)
  | None =>
      match s with
      | EmptyString => None
      | String _ s' => search alts s' (S pos)
      end
  end.

(** [re.exec(line)] for a global pattern whose [lastIndex] is
    [lastIndex]: the result and the new [lastIndex].  A failed search
    resets [lastIndex] to 0. *)
Definition exec (alts : list string) (line : string) (lastIndex : nat)
  : option Match * nat :=
  if Nat.ltb (String.length line) lastIndex then (None, 0)
  else match search alts (Str.drop lastIndex line) lastIndex with
       | Some (start, m) => (Some m, start + matched m)
       | None => (None, 0)
       end.

End RegExp.


(** ** Data model *)

Module Comment.
Record t := mk {
  type : string;
  content : string;
  file : string;
  line : nat;
  message : string;
  key : string
}.
End Comment.

Module GitHubIssue.
Record t := mk {
  id : nat;
  title : string;
  body : string;
  key : string
}.
End GitHubIssue.

(** ** Arrays and paths *)

(** The index [k] of [Array.prototype.slice] made absolute: counted from
    the end when negative, clamped to the array. *)
Definition relative_index (len k : Z) : Z :=
  if (k <? 0)%Z then Z.max (len + k) 0 else Z.min k len.

(** [xs.slice(a, b)]. *)
Definition slice {A} (xs : list A) (a b : Z) : list A :=
  let len := Z.of_nat (length xs) in
  let first := relative_index len a in
  let final := relative_index len b in
  take (Z.to_nat (final - first)) (drop (Z.to_nat first) xs).

(** [path.basename(p)], POSIX flavour: the last segment that is not empty. *)
Definition basename (p : string) : string :=
  match List.filter (fun seg => negb (String.eqb seg EmptyString))
          (rev (Str.split "/"%char p)) with
  | seg :: _ => seg
  | [] => EmptyString
  end.

(** ** Extraction *)

Section Extraction.

Variable filePath : string.
Variable alts : list string.
Variable lines : list string.

(** The lines of the context of line [index]:
    [lines.slice(contextStart, contextEnd + 1)]. *)
Definition context_window (index : nat) : list string :=
  let contextStart := Z.max (Z.of_nat index - 5) 0 in
  let contextEnd := Z.min (Z.of_nat index + 5) (Z.of_nat (length lines) - 1) in
  slice lines contextStart (contextEnd + 1).

(** [Buffer.from(`${filePath}:${index + 1}`).toString('base64')]. *)
Definition key_of (index : nat) : string :=
  Buffer.toBase64
    (Buffer.from (filePath +:+ ":" +:+ Str.of_nat (index + 1))).

(** The body of the [while] loop for one match on line [index]. *)
Definition comment_of (index : nat) (m : RegExp.Match) : Comment.t :=
  let context := Str.join Str.nl (context_window index) in
  let key := key_of index in
  {| Comment.type := RegExp.group1 m;
     Comment.content := RegExp.group2 m;
     Comment.file := filePath;
     Comment.line := index + 1;
     Comment.message := context;
     Comment.key := key |}.

(** [while ((match = commentRegex.exec(line)) !== null) { push }] entered
    with the pattern's [lastIndex]; the comments pushed and the
    [lastIndex] the loop leaves behind.  [None]: the turns allowed by
    [fuel] did not reach the failing [exec]. *)
Fixpoint while_exec (fuel : nat) (line : string) (index lastIndex : nat)
  : option (list Comment.t * nat) :=
  match fuel with
  | O => None
  | S fuel' =>
      match RegExp.exec alts line lastIndex with
      | (None, lastIndex') => Some ([], lastIndex')
      | (Some m, lastIndex') =>
          match while_exec fuel' line index lastIndex' with
          | Some (cs, final) => Some (comment_of index m :: cs, final)
          | None => None
          end
      end
  end.

(** One call of the [forEach] callback.  Every match ends behind the
    place the search started from, so a line of [n] characters takes at
    most [n + 1] turns. *)
Definition scan_line (line : string) (index lastIndex : nat)
  : option (list Comment.t * nat) :=
  while_exec (S (String.length line)) line index lastIndex.

(** The comments of line [index] when the pattern starts afresh, with
    [lastIndex = 0]. *)
Definition fresh_scan (index : nat) (line : string) : list Comment.t :=
  match scan_line line index 0 with
  | Some (cs, _) => cs
  | None => []
  end.

(** [lines.forEach((line, index) => ...)] from [index] on; the one
    pattern object is shared by all the calls, so its [lastIndex] is
    threaded through them. *)
Fixpoint forEach (rest : list string) (index lastIndex : nat)
  : option (list Comment.t * nat) :=
  match rest with
  | [] => Some ([], lastIndex)
  | line :: rest' =>
      match scan_line line index lastIndex with
      | Some (cs, lastIndex') =>
          match forEach rest' (S index) lastIndex' with
          | Some (cs', final) => Some (cs ++ cs', final)
          | None => None
          end
      | None => None
      end
  end.

End Extraction.

(** The scan of a file with a new pattern object ([lastIndex = 0]): the
    comments and the [lastIndex] of the pattern at the end. *)
Definition scan_file (fileContent filePath : string) (prefixes : list string)
  : option (list Comment.t * nat) :=
  let lines := Str.split Str.LF fileContent in
  forEach filePath (RegExp.alternatives prefixes) lines lines 0 0.

(** [extractComments]: the comments of the scan, for plain prefixes (see
    [plain_prefixes]): then the pattern is accepted, every match holds a
    colon and the scan returns (lemma [scan_file_returns]), so the second
    branch is never taken.  The [SyntaxError] of a prefix that is no
    pattern source and the endless loop of a pattern that matches the empty
    string are outside this definition. *)
Definition extractComments (fileContent filePath : string)
    (prefixes : list string) : list Comment.t :=
  match scan_file fileContent filePath prefixes with
  | Some (comments, _) => comments
  | None => []
  end.

(** ** Issue text and key recovery *)

Definition generateIssueContent (comment : Comment.t) : string * string :=
  let title :=
    Comment.type comment +:+ " in " +:+ basename (Comment.file comment)
    +:+ " at line " +:+ Str.of_nat (Comment.line comment) in
  let description :=
    "Found a " +:+ Comment.type comment +:+ " comment:" +:+ Str.nl +:+ Str.nl
    +:+ "> " +:+ Comment.content comment +:+ Str.nl +:+ Str.nl
    +:+ "Context:" +:+ Str.nl +:+ Comment.message comment +:+ Str.nl +:+ Str.nl
    +:+ "This issue was generated automatically from a source code comment."
    +:+ Str.nl +:+ Str.nl
    +:+ "=== DO NOT REMOVE ===" +:+ Str.nl
    +:+ "Key: " +:+ Comment.key comment in
  (title, description).

Definition title_of (comment : Comment.t) : string :=
  fst (generateIssueContent comment).

Definition description_of (comment : Comment.t) : string :=
  snd (generateIssueContent comment).

(** [body.match] with the key pattern: the leftmost place where the text
    [Key: ] begins, and group 1, the characters behind it up to the next
    line terminator; the empty string when that text is nowhere in [body]. *)
Fixpoint parseIssueKey (body : string) : string :=
  if String.prefix "Key: " body then
    Str.take_while Str.is_dot (Str.drop 5 body)
  else
    match body with
    | EmptyString => EmptyString
    | String _ body' => parseIssueKey body'
    end.

(** ** Reconciliation: the decisions of [run] *)

(** [existingIssues.find(issue => issue.key === comment.key)]. *)
Definition findExisting (existingIssues : list GitHubIssue.t)
    (comment : Comment.t) : option GitHubIssue.t :=
  List.find
    (fun issue => String.eqb (GitHubIssue.key issue) (Comment.key comment))
    existingIssues.

(** [existingIssues.filter(issue => !foundComments.some(comment =>
    comment.key === issue.key))]. *)
Definition issuesToClose (existingIssues : list GitHubIssue.t)
    (foundComments : list Comment.t) : list GitHubIssue.t :=
  List.filter
    (fun issue =>
       negb (existsb
               (fun comment =>
                  String.eqb (Comment.key comment) (GitHubIssue.key issue))
               foundComments))
    existingIssues.

(** The comments that take the [if (existingIssue)] branch, each with the
    issue found for it, and those that take the [else] branch. *)
Fixpoint toUpdate (existingIssues : list GitHubIssue.t)
    (foundComments : list Comment.t) : list (GitHubIssue.t * Comment.t) :=
  match foundComments with
  | [] => []
  | comment :: rest =>
      match findExisting existingIssues comment with
      | Some existingIssue =>
          (existingIssue, comment) :: toUpdate existingIssues rest
      | None => toUpdate existingIssues rest
      end
  end.

Fixpoint toCreate (existingIssues : list GitHubIssue.t)
    (foundComments : list Comment.t) : list Comment.t :=
  match foundComments with
  | [] => []
  | comment :: rest =>
      match findExisting existingIssues comment with
      | Some _ => toCreate existingIssues rest
      | None => comment :: toCreate existingIssues rest
      end
  end.

(** The key sets of the three-way comparison. *)
Definition annotationKeys (foundComments : list Comment.t) : gset string :=
  list_to_set (map Comment.key foundComments).

Definition issueKeys (existingIssues : list GitHubIssue.t) : gset string :=
  list_to_set (map GitHubIssue.key existingIssues).

Definition matchedKeys (existingIssues : list GitHubIssue.t)
    (foundComments : list Comment.t) : gset string :=
  list_to_set
    (map (fun p => Comment.key (snd p)) (toUpdate existingIssues foundComments)).

Definition createKeys (existingIssues : list GitHubIssue.t)
    (foundComments : list Comment.t) : gset string :=
  list_to_set (map Comment.key (toCreate existingIssues foundComments)).

Definition closeKeys (existingIssues : list GitHubIssue.t)
    (foundComments : list Comment.t) : gset string :=
  list_to_set
    (map GitHubIssue.key (issuesToClose existingIssues foundComments)).

(** ** The tracker and the outside world *)

(** The requests and file-system calls a run makes, in the order made. *)
Inductive Call :=
| GetIssues
| ReadDir (directoryPath fileExtension : string)
| ReadFile (filePath : string)
| PostIssue (title body : string)
| PatchIssue (issue_number : nat) (title body : string)
| PatchClosed (issue_number : nat).

(** A thrown value: an [Error] with its message, or something else. *)
Inductive Thrown :=
| ErrorObject (message : string)
| NotAnError.

Module ApiIssue.
Record t := mk { number : nat; title : string; body : string }.
End ApiIssue.

(** Modelled from the spec: the tracker behind the gateway (section 4.4),
    which the repository reaches through [octokit.request] only.  It holds
    the open issues; [create] files an issue under a number of the
    tracker's choice, [update] replaces title and body of the issue with
    the given number, [close] takes that issue out of the open ones, and
    the listing returns the open issues. *)
Module Tracker.
Record t := mk { open : list ApiIssue.t; next_number : nat }.

Definition create (title body : string) (tr : t) : t :=
  {| open := open tr ++ [ApiIssue.mk (next_number tr) title body];
     next_number := S (next_number tr) |}.

Definition update (n : nat) (title body : string) (tr : t) : t :=
  {| open :=
       map (fun issue =>
              if Nat.eqb (ApiIssue.number issue) n
              then ApiIssue.mk n title body else issue)
           (open tr);
     next_number := next_number tr |}.

Definition close (n : nat) (tr : t) : t :=
  {| open :=
       List.filter (fun issue => negb (Nat.eqb (ApiIssue.number issue) n))
         (open tr);
     next_number := next_number tr |}.

(** What a call that succeeds does to the tracker. *)
Definition apply (c : Call) (tr : t) : t :=
  match c with
  | PostIssue title body => create title body tr
  | PatchIssue n title body => update n title body tr
  | PatchClosed n => close n tr
  | GetIssues | ReadDir _ _ | ReadFile _ => tr
  end.
End Tracker.

(** The [map] callback of [fetchExistingIssues]: an issue of the listing
    with the key parsed out of its body. *)
Definition issue_of (issue : ApiIssue.t) : GitHubIssue.t :=
  {| GitHubIssue.title := ApiIssue.title issue;
     GitHubIssue.body := ApiIssue.body issue;
     GitHubIssue.key := parseIssueKey (ApiIssue.body issue);
     GitHubIssue.id := ApiIssue.number issue |}.

(** What a run is given: the action's inputs, the source tree ([files]
    lists what [listAllSourceFiles] returns for a directory and an
    extension, [contents] what [readFile] returns), and [throws], which
    tells for a call and the calls made before it whether it fails. *)
Record Env := {
  getInput : string -> string;
  files : string -> string -> list string;
  contents : string -> string;
  throws : list Call -> Call -> option Thrown
}.

Record State := { tracker : Tracker.t; log : list Call }.

(** Computations that make calls and may throw. *)
Definition M (A : Type) : Type := State -> (Thrown + A) * State.

Definition ret {A} (a : A) : M A := fun st => (inr a, st).

Definition bind {A B} (m : M A) (k : A -> M B) : M B :=
  fun st =>
    match m st with
    | (inl e, st') => (inl e, st')
    | (inr a, st') => k a st'
    end.

#[global] Instance M_ret : MRet M := @ret.
#[global] Instance M_bind : MBind M := fun A B k m => bind m k.

(** [for (const x of xs) { await f(x) }]. *)
Fixpoint for_of {A} (xs : list A) (f : A -> M unit) : M unit :=
  match xs with
  | [] => ret tt
  | x :: rest => f x;; for_of rest f
  end.

Section Run.

Variable env : Env.

(** One call: it is logged, then it throws, or it acts on the tracker
    and returns what [value] reads there. *)
Definition invoke {A} (c : Call) (value : Tracker.t -> A) : M A :=
  fun st =>
    let log' := log st ++ [c] in
    match throws env (log st) c with
    | Some e => (inl e, {| tracker := tracker st; log := log' |})
    | None =>
        (inr (value (tracker st)),
         {| tracker := Tracker.apply c (tracker st); log := log' |})
    end.

Definition readFileContent (filePath : string) : M string :=
  invoke (ReadFile filePath) (fun _ => contents env filePath).

Definition listAllSourceFiles (directoryPath fileExtension : string)
  : M (list string) :=
  invoke (ReadDir directoryPath fileExtension)
    (fun _ => files env directoryPath fileExtension).

Definition fetchExistingIssues : M (list GitHubIssue.t) :=
  invoke GetIssues (fun tr => map issue_of (Tracker.open tr)).

Definition createGitHubIssue (title description : string) : M unit :=
  invoke (PostIssue title description) (fun _ => tt).

Definition updateGitHubIssue (issueId : nat) (title description : string)
  : M unit :=
  invoke (PatchIssue issueId title description) (fun _ => tt).

Definition closeGithubIssue (issueId : nat) : M unit :=
  invoke (PatchClosed issueId) (fun _ => tt).

(** The first loop of [run]: read and scan every file, pushing the
    comments onto [foundComments].  The only call that can throw here is
    the reading of a file; this is so for plain prefixes, for which
    [extractComments] returns. *)
Fixpoint collect (prefixes sourceFiles : list string)
    (foundComments : list Comment.t) : M (list Comment.t) :=
  match sourceFiles with
  | [] => ret foundComments
  | file :: rest =>
      content ← readFileContent file;
      let comments := extractComments content file prefixes in
      collect prefixes rest (foundComments ++ comments)
  end.

(** The body of the second loop. *)
Definition process (existingIssues : list GitHubIssue.t)
    (comment : Comment.t) : M unit :=
  let '(title, description) := generateIssueContent comment in
  match findExisting existingIssues comment with
  | Some existingIssue =>
      updateGitHubIssue (GitHubIssue.id existingIssue) title description
  | None => createGitHubIssue title description
  end.

(** The inputs read by the [try] block. *)
Definition prefixes_input : list string :=
  map Str.trim (Str.split ","%char (getInput env "comment-prefixes")).

Definition extension_input : string :=
  if String.eqb (getInput env "file-extension") EmptyString
  then ".ts" else getInput env "file-extension".

(** The [try] block of [run]. *)
Definition attempt : M unit :=
  let prefixes := prefixes_input in
  existingIssues ← fetchExistingIssues;
  sourceFiles ←
    listAllSourceFiles (getInput env "source-directory") extension_input;
  foundComments ← collect prefixes sourceFiles [];
  for_of foundComments (process existingIssues);;
  for_of (issuesToClose existingIssues foundComments)
    (fun issue => closeGithubIssue (GitHubIssue.id issue)).

(** [run]: the [try] block, and the [catch] that hands the message of a
    caught [Error] to [core.setFailed].  The result is that message, if
    any, and the state the run leaves. *)
Definition run (st : State) : option string * State :=
  match attempt st with
  | (inl (ErrorObject message), st') => (Some message, st')
  | (inl NotAnError, st') => (None, st')
  | (inr _, st') => (None, st')
  end.

End Run.

(** ** The calls a run is to make *)

(** The request [process] makes for a comment. *)
Definition call_for (existingIssues : list GitHubIssue.t)
    (comment : Comment.t) : Call :=
  match findExisting existingIssues comment with
  | Some existingIssue =>
      PatchIssue (GitHubIssue.id existingIssue)
        (title_of comment) (description_of comment)
  | None => PostIssue (title_of comment) (description_of comment)
  end.

(** The requests of the two last loops of [run], in order. *)
Definition plan (existingIssues : list GitHubIssue.t)
    (foundComments : list Comment.t) : list Call :=
  map (call_for existingIssues) foundComments
  ++ map (fun issue => PatchClosed (GitHubIssue.id issue))
       (issuesToClose existingIssues foundComments).

(** The comments of the source files of [env], file after file. *)
Definition found_in (env : Env) (sourceFiles : list string)
  : list Comment.t :=
  concat
    (map (fun file => extractComments (contents env file) file
                        (prefixes_input env))
       sourceFiles).

Definition sourceFiles_of (env : Env) : list string :=
  files env (getInput env "source-directory") (extension_input env).

(** All the calls of a run in which nothing throws. *)
Definition script (env : Env) (tr : Tracker.t) : list Call :=
  GetIssues
  :: ReadDir (getInput env "source-directory") (extension_input env)
  :: map ReadFile (sourceFiles_of env)
  ++ plan (map issue_of (Tracker.open tr)) (found_in env (sourceFiles_of env)).

(** [calls] made one after the other, up to the first that throws. *)
Fixpoint perform (env : Env) (calls : list Call) (st : State)
  : option Thrown * State :=
  match calls with
  | [] => (None, st)
  | c :: rest =>
      match throws env (log st) c with
      | Some e => (Some e, {| tracker := tracker st; log := log st ++ [c] |})
      | None =>
          perform env rest
            {| tracker := Tracker.apply c (tracker st); log := log st ++ [c] |}
      end
  end.

(** The result of a computation that made the calls of [perform] and
    returns [a] when none threw. *)
Definition outcome {A} (a : A) (r : option Thrown * State)
  : (Thrown + A) * State :=
  match r with
  | (Some e, st') => (inl e, st')
  | (None, st') => (inr a, st')
  end.

(** What the [catch] of [run] hands to [core.setFailed]. *)
Definition reported (e : Thrown) : option string :=
  match e with
  | ErrorObject message => Some message
  | NotAnError => None
  end.

(** No call of [calls], made in this order after those of [log], throws. *)
Definition quiet (env : Env) (log calls : list Call) : Prop :=
  forall i c,
    calls !! i = Some c -> throws env (log ++ take i calls) c = None.

(** [c] was extracted from some file. *)
Definition extracted (c : Comment.t) : Prop :=
  exists fileContent filePath prefixes,
    In c (extractComments fileContent filePath prefixes).

(** ** The source tree *)

Module Fs.

(** What the file system holds at a path: a file, a directory with what
    [fs.readdirSync] returns for it (the names and what they lead to, or the
    error thrown), or something [fs.statSync] throws on. *)
Local Unset Elimination Schemes.
Inductive Entry :=
| File
| Directory (readdir : Thrown + list (string * Entry))
| Unstatable (e : Thrown).
Local Set Elimination Schemes.

(** The values handed to [console.error], and the files returned or the
    error thrown. *)
Definition Result : Type := list Thrown * (Thrown + list string).

(** [files.forEach(callback)]: the callback on every entry in turn, up to
    the first call that throws; [acc] is [filesInDirectory]. *)
Definition forEach_entries
    (callback : string -> Entry -> list string -> Result)
  : list (string * Entry) -> list string -> Result :=
  fix go files acc :=
    match files with
    | [] => ([], inr acc)
    | (file, e) :: rest =>
        match callback file e acc with
        | (logged, inl err) => (logged, inl err)
        | (logged, inr acc') =>
            let (logged', r) := go rest acc' in (logged ++ logged', r)
        end
    end.

(** The [catch] block: the error is logged and thrown again. *)
Definition catching (r : Result) : Result :=
  match r with
  | (logged, inl err) => (logged ++ [err], inl err)
  | (logged, inr found) => (logged, inr found)
  end.

Section Listing.

(** [path.join] and [path.extname]. *)
Variable join : string -> string -> string.
Variable extname : string -> string.

Variable fileExtension : string.

(** The callback of [files.forEach] in [listAllSourceFiles(directoryPath)],
    with the recursive call for a directory written out. *)
Fixpoint callback (directoryPath file : string) (e : Entry)
    (filesInDirectory : list string) {struct e} : Result :=
  let fullPath := join directoryPath file in
  match e with
  | Unstatable err => ([], inl err)
  | Directory readdir =>
      match catching
              match readdir with
              | inl err => ([], inl err)
              | inr files => forEach_entries (callback fullPath) files []
              end
      with
      | (logged, inl err) => (logged, inl err)
      | (logged, inr found) => (logged, inr (filesInDirectory ++ found))
      end
  | File =>
      if String.eqb (extname file) fileExtension
      then ([], inr (filesInDirectory ++ [fullPath]))
      else ([], inr filesInDirectory)
  end.

(** [listAllSourceFiles(directoryPath, fileExtension)], where [readdir] is
    what [fs.readdirSync(directoryPath)] does. *)
Definition listAllSourceFiles (directoryPath : string)
    (readdir : Thrown + list (string * Entry)) : Result :=
  catching
    match readdir with
    | inl err => ([], inl err)
    | inr files => forEach_entries (callback directoryPath) files []
    end.

(** [p] is the path of a file with the extension, somewhere below
    [directoryPath]. *)
Inductive listed : string -> list (string * Entry) -> string -> Prop :=
| listed_here directoryPath files file :
    In (file, File) files ->
    extname file = fileExtension ->
    listed directoryPath files (join directoryPath file)
| listed_below directoryPath files file sub p :
    In (file, Directory (inr sub)) files ->
    listed (join directoryPath file) sub p ->
    listed directoryPath files p.

End Listing.

(** Nothing in the tree makes [statSync] or [readdirSync] throw. *)
Fixpoint healthy (e : Entry) : bool :=
  match e with
  | File => true
  | Unstatable _ => false
  | Directory (inl _) => false
  | Directory (inr files) =>
      (fix all files :=
         match files with
         | [] => true
         | (_, e') :: rest => healthy e' && all rest
         end) files
  end.

Definition all_healthy (files : list (string * Entry)) : bool :=
  forallb (fun fe => healthy (snd fe)) files.

(** [path.join] of a directory path and a name, for a directory path that
    [path.join] leaves as it is: relative or absolute, not empty, without
    [.] and [..] segments and without a doubled or trailing slash. *)
Definition join_name (directoryPath file : string) : string :=
  directoryPath +:+ "/" +:+ file.

(** The text of [s] from its last dot on, if it has a dot. *)
Fixpoint from_last_dot (s : string) : option string :=
  match s with
  | EmptyString => None
  | String c s' =>
      match from_last_dot s' with
      | Some e => Some e
      | None => if Ascii.eqb c "."%char then Some s else None
      end
  end.

(** [path.extname] of a name without slashes: the text from the last dot
    on, unless that dot opens the name or the name is [..]. *)
Definition extname_of_name (file : string) : string :=
  match file with
  | EmptyString => EmptyString
  | String _ rest =>
      match from_last_dot rest with
      | Some e => if String.eqb file ".." then EmptyString else e
      | None => EmptyString
      end
  end.

End Fs.

(** The requests that change the tracker. *)
Definition is_write (c : Call) : bool :=
  match c with
  | PostIssue _ _ | PatchIssue _ _ _ | PatchClosed _ => true
  | GetIssues | ReadDir _ _ | ReadFile _ => false
  end.

(** The three kinds of requests that change the tracker. *)
Definition is_update (c : Call) : bool :=
  match c with PatchIssue _ _ _ => true | _ => false end.

Definition is_create (c : Call) : bool :=
  match c with PostIssue _ _ => true | _ => false end.

Definition is_close (c : Call) : bool :=
  match c with PatchClosed _ => true | _ => false end.

(** The request of [updateGitHubIssue] for a matched pair, of
    [createGitHubIssue] for an annotation, of [closeGithubIssue] for an
    issue. *)
Definition update_of (pair : GitHubIssue.t * Comment.t) : Call :=
  PatchIssue (GitHubIssue.id (fst pair))
    (title_of (snd pair)) (description_of (snd pair)).

Definition create_of (comment : Comment.t) : Call :=
  PostIssue (title_of comment) (description_of comment).

Definition close_of (issue : GitHubIssue.t) : Call :=
  PatchClosed (GitHubIssue.id issue).

(** Every prefix is a plain word, free of pattern syntax.  For such
    prefixes [new RegExp] accepts the source built by [extractComments], the
    group of the pattern matches one of the words character by character,
    and every match holds the colon, so the loop over the matches ends. *)
Definition plain_prefixes (prefixes : list string) : bool :=
  forallb RegExp.plain_prefix prefixes.

(** The place of a base64 digit in the alphabet. *)
Definition digit_index (c : ascii) : N :=
  (fix find (s : string) (n : N) : N :=
     match s with
     | EmptyString => n
     | String d s' => if Ascii.eqb c d then n else find s' (N.succ n)
     end) Buffer.alphabet 0%N.

Definition not_colon (c : ascii) : bool := negb (Ascii.eqb c Str.colon).

(** The prefixes of the call at the end of [src/main.ts]. *)
Definition colon_prefixes : list string := ["TODO:"; "FIXME:"; "BUG:"; "NOTE:"].

(** A tree: two sources, a note, a directory named like a source, and a
    directory that cannot be read. *)
Definition sample_tree : list (string * Fs.Entry) :=
  [("a.ts", Fs.File);
   ("notes.md", Fs.File);
   ("lib.ts", Fs.Directory (inr [("b.ts", Fs.File); (".ts", Fs.File)]))].

Definition locked_tree : list (string * Fs.Entry) :=
  sample_tree
  ++ [("vault", Fs.Directory
                  (inr [("inner", Fs.Directory
                                    (inl (ErrorObject "EACCES")))]));
      ("c.ts", Fs.File)].

(** ** The key round trip *)

(** The marker line of a generated body, with its line end. *)
Definition marker_line : string := "=== DO NOT REMOVE ===" +:+ Str.nl.

(** The text of a generated body above the marker line. *)
Definition quoted_text (comment : Comment.t) : string :=
  "Found a " +:+ Comment.type comment +:+ " comment:" +:+ Str.nl +:+ Str.nl
  +:+ "> " +:+ Comment.content comment +:+ Str.nl +:+ Str.nl
  +:+ "Context:" +:+ Str.nl +:+ Comment.message comment +:+ Str.nl +:+ Str.nl
  +:+ "This issue was generated automatically from a source code comment."
  +:+ Str.nl +:+ Str.nl.

(** The key parsed from the body generated for [comment] is its key. *)
Definition round_trips (comment : Comment.t) : Prop :=
  parseIssueKey (description_of comment) = Comment.key comment.

(** The number and the parsed key of an open issue. *)
Definition entry (issue : ApiIssue.t) : nat * string :=
  (ApiIssue.number issue, parseIssueKey (ApiIssue.body issue)).

Definition entries (tr : Tracker.t) : list (nat * string) :=
  map entry (Tracker.open tr).

(** The open issues have distinct numbers, all handed out already. *)
Definition well_numbered (tr : Tracker.t) : Prop :=
  NoDup (map ApiIssue.number (Tracker.open tr)) /\
  forall issue, In issue (Tracker.open tr) ->
                ApiIssue.number issue < Tracker.next_number tr.

(** ** Sample inputs *)

Definition sample_prefixes : list string := ["TODO"; "FIXME"].

Definition sample_line : string := "// TODO: x FIXME: y".

(** The sample line with a carriage return before the second prefix. *)
Definition sample_line_cr : string :=
  "// TODO: x" +:+ String Str.CR "FIXME: y".

(** Two annotations, [TODO] with content [x] and [FIXME] with content [y]. *)
Definition yields_todo_x_and_fixme_y (comments : list Comment.t) : Prop :=
  exists c1 c2,
    comments = [c1; c2] /\
    Comment.type c1 = "TODO" /\ Comment.content c1 = "x" /\
    Comment.type c2 = "FIXME" /\ Comment.content c2 = "y".

(** The reading of "never closed": no issue to close has the empty key. *)
Definition never_closes_unkeyed (existingIssues : list GitHubIssue.t)
    (foundComments : list Comment.t) : Prop :=
  forall issue,
    In issue (issuesToClose existingIssues foundComments) ->
    GitHubIssue.key issue <> EmptyString.

(** An issue somebody filed by hand. *)
Definition foreign_issue : ApiIssue.t :=
  ApiIssue.mk 7 "Crash on start" "It crashes.".

(** The reading of "a failure does not abort the run": whatever throws,
    every call of the script is made. *)
Definition isolates_failures (env : Env) (st : State) : Prop :=
  forall c,
    In c (script env (tracker st)) -> In c (log (snd (run env st))).

(** The action's inputs for a tree with the one file [src/a.ts]. *)
Definition sample_input (name : string) : string :=
  if String.eqb name "comment-prefixes" then "TODO, FIXME"
  else if String.eqb name "source-directory" then "src"
  else EmptyString.

(** A run over two annotations in which the tracker refuses the issue of
    the first one. *)
Definition env_refused : Env :=
  {| getInput := sample_input;
     files := fun _ _ => ["src/a.ts"];
     contents := fun _ => "// TODO: first" +:+ Str.nl +:+ "// FIXME: second";
     throws := fun _ c =>
       match c with
       | PostIssue title _ =>
           if String.eqb title "TODO in a.ts at line 1"
           then Some (ErrorObject "Validation Failed") else None
       | _ => None
       end |}.

(** A run over two files, the first of which cannot be read. *)
Definition env_unreadable : Env :=
  {| getInput := sample_input;
     files := fun _ _ => ["src/a.ts"; "src/b.ts"];
     contents := fun _ => sample_line;
     throws := fun _ c =>
       match c with
       | ReadFile filePath =>
           if String.eqb filePath "src/a.ts"
           then Some (ErrorObject "EACCES: permission denied") else None
       | _ => None
       end |}.

(** A source line whose annotation text holds the words of the marker. *)
Definition key_text_line : string := "// TODO: Key: abc".

(** A run over one annotation whose text holds the words of the key
    marker; nothing throws. *)
Definition env_key_text : Env :=
  {| getInput := sample_input;
     files := fun _ _ => ["src/a.ts"];
     contents := fun _ => key_text_line;
     throws := fun _ _ => None |}.

Definition empty_tracker : State :=
  {| tracker := Tracker.mk [] 1; log := [] |}.

(** The annotation of the sample line, and the issue a run files for it. *)
Definition sample_comment : Comment.t :=
  {| Comment.type := "TODO"; Comment.content := "x FIXME: y";
     Comment.file := "src/a.ts"; Comment.line := 1;
     Comment.message := sample_line; Comment.key := "c3JjL2EudHM6MQ==" |}.

Definition sample_issue : GitHubIssue.t :=
  issue_of (ApiIssue.mk 1 (title_of sample_comment)
              (description_of sample_comment)).

(** A file of ten lines with one annotation on its seventh line. *)
Definition ten_lines : string :=
  Str.join Str.nl ["a"; "b"; "c"; "d"; "e"; "f"; "TODO: g"; "h"; "i"; "j"].

(** A run that cannot reach the tracker. *)
Definition env_offline : Env :=
  {| getInput := sample_input;
     files := fun _ _ => ["src/a.ts"];
     contents := fun _ => sample_line;
     throws := fun _ c =>
       match c with
       | GetIssues => Some (ErrorObject "getaddrinfo ENOTFOUND api.github.com")
       | _ => None
       end |}.

(** A run over a directory without source files; nothing throws. *)
Definition env_no_sources : Env :=
  {| getInput := sample_input;
     files := fun _ _ => [];
     contents := fun _ => EmptyString;
     throws := fun _ _ => None |}.

(** A tracker with an issue a run filed and an issue filed by hand. *)
Definition tracker_with_issues : State :=
  {| tracker :=
       Tracker.mk
         [ApiIssue.mk 1 (title_of sample_comment) (description_of sample_comment);
          foreign_issue] 8;
     log := [] |}.

(** A run over the one file [src/a.ts] holding the sample line; nothing
    throws. *)
Definition env_sample : Env :=
  {| getInput := sample_input;
     files := fun _ _ => ["src/a.ts"];
     contents := fun _ => sample_line;
     throws := fun _ _ => None |}.

Definition not_sep (sep c : ascii) : bool := negb (Ascii.eqb c sep).

(** The reading of "one update against that issue": every fetched issue
    whose key is the key of a found annotation gets the request that
    updates it from that annotation. *)
Definition updates_each_issue_with_the_key (env : Env) (st : State) : Prop :=
  forall issue comment,
    In issue (map issue_of (Tracker.open (tracker st))) ->
    In comment (found_in env (sourceFiles_of env)) ->
    GitHubIssue.key issue = Comment.key comment ->
    In (update_of (issue, comment)) (log (snd (run env st))).

(** A tracker with two open issues that carry the key of the sample
    annotation. *)
Definition twin_tracker : State :=
  {| tracker :=
       Tracker.mk
         [ApiIssue.mk 1 (title_of sample_comment) (description_of sample_comment);
          ApiIssue.mk 2 (title_of sample_comment) (description_of sample_comment)]
         3;
     log := [] |}.

(** * Properties *)

(** ** Strings *)

Lemma strlen_drop n s :
  String.length (Str.drop n s) = String.length s - n.
Proof.
  revert s; induction n as [|n IH]; intros [|c s]; simpl; auto with lia.
Qed.

Lemma strlen_take_while f s :
  String.length (Str.take_while f s) <= String.length s.
Proof.
  induction s as [|c s IH]; simpl; [lia|].
  destruct (f c); simpl; lia.
Qed.

Lemma prefix_length p s :
  String.prefix p s = true -> String.length p <= String.length s.
Proof.
  revert s; induction p as [|c p IH]; intros [|d s] H; simpl in *;
    try lia; try discriminate.
  destruct (ascii_dec c d); [|discriminate].
  apply IH in H. lia.
Qed.

Lemma split_nonempty sep s : 1 <= length (Str.split sep s).
Proof.
  induction s as [|c s IH]; simpl; [lia|].
  destruct (Ascii.eqb c sep); simpl; [lia|].
  destruct (Str.split sep s); simpl; lia.
Qed.

(** ** The pattern: every match is non-empty and lies inside the line *)

Lemma after_prefix_bounds p rest m :
  RegExp.after_prefix p rest = Some m ->
  RegExp.group1 m = p /\
  String.length p + 1 <= RegExp.matched m <= String.length p + String.length rest.
Proof.
  unfold RegExp.after_prefix.
  destruct rest as [|c rest]; [discriminate|].
  destruct (Ascii.eqb c Str.colon); [|discriminate].
  intros [= <-]; simpl.
  pose proof (strlen_take_while Str.is_space rest) as Hws.
  pose proof (strlen_take_while Str.is_dot
                (Str.drop (String.length (Str.take_while Str.is_space rest)) rest))
    as Hbody.
  rewrite strlen_drop in Hbody. split; [reflexivity | lia].
Qed.

Lemma match_here_bounds alts s m :
  RegExp.match_here alts s = Some m ->
  1 <= RegExp.matched m <= String.length s /\ In (RegExp.group1 m) alts.
Proof.
  induction alts as [|p alts IH]; simpl; [discriminate|].
  destruct (String.prefix p s) eqn:Hp.
  - destruct (RegExp.after_prefix p (Str.drop (String.length p) s)) as [m'|] eqn:Ha.
    + intros [= <-]. apply after_prefix_bounds in Ha as (Hg & Hm).
      rewrite strlen_drop in Hm. apply prefix_length in Hp.
      split; [lia|]. left; congruence.
    + intros H. apply IH in H as (? & ?). auto.
  - intros H. apply IH in H as (? & ?). auto.
Qed.

Lemma search_bounds alts s pos start m :
  RegExp.search alts s pos = Some (start, m) ->
  pos <= start /\ 1 <= RegExp.matched m /\
  start + RegExp.matched m <= pos + String.length s /\
  In (RegExp.group1 m) alts.
Proof.
  revert pos; induction s as [|c s IH]; intros pos; simpl.
  - destruct (RegExp.match_here alts EmptyString) as [m'|] eqn:Hm; [|discriminate].
    intros [= <- <-]. apply match_here_bounds in Hm. simpl in Hm. lia.
  - destruct (RegExp.match_here alts (String c s)) as [m'|] eqn:Hm.
    + intros [= <- <-]. apply match_here_bounds in Hm as (Hm & Hg).
      simpl in Hm. repeat split; auto; lia.
    + intros H. apply IH in H. intuition lia.
Qed.

(** [exec] either finds a match that ends behind [lastIndex] and inside the
    line, or fails and resets [lastIndex]. *)
Lemma exec_cases alts line lastIndex :
  (exists m lastIndex',
      RegExp.exec alts line lastIndex = (Some m, lastIndex') /\
      lastIndex < lastIndex' <= String.length line /\
      In (RegExp.group1 m) alts) \/
  RegExp.exec alts line lastIndex = (None, 0).
Proof.
  unfold RegExp.exec.
  destruct (Nat.ltb (String.length line) lastIndex) eqn:Hlt; [now right|].
  apply Nat.ltb_ge in Hlt.
  destruct (RegExp.search alts (Str.drop lastIndex line) lastIndex)
    as [[start m]|] eqn:Hs; [|now right].
  left. exists m, (start + RegExp.matched m). split; [reflexivity|].
  apply search_bounds in Hs. rewrite strlen_drop in Hs. intuition lia.
Qed.

(** ** The scan of a line and of a file returns *)

Section Scan.

Variables (filePath : string) (alts lines : list string).

Lemma while_exec_returns fuel line index lastIndex :
  1 <= fuel ->
  String.length line + 1 <= fuel + lastIndex ->
  exists cs,
    while_exec filePath alts lines fuel line index lastIndex = Some (cs, 0) /\
    forall c, In c cs -> exists m, c = comment_of filePath lines index m.
Proof.
  revert lastIndex; induction fuel as [|fuel IH]; intros lastIndex H1 H2; [lia|].
  simpl.
  destruct (exec_cases alts line lastIndex) as [(m & li & -> & Hli & _)| ->].
  - destruct (IH li) as (cs & -> & Hcs); [lia|lia|].
    exists (comment_of filePath lines index m :: cs). split; [reflexivity|].
    intros c [<-|Hc]; eauto.
  - exists []. split; [reflexivity|]. intros c [].
Qed.

Lemma scan_line_returns line index lastIndex :
  exists cs,
    scan_line filePath alts lines line index lastIndex = Some (cs, 0) /\
    forall c, In c cs -> exists m, c = comment_of filePath lines index m.
Proof. apply while_exec_returns; lia. Qed.

Lemma forEach_returns rest index :
  forEach filePath alts lines rest index 0
  = Some (concat (imap (fun i => fresh_scan filePath alts lines (index + i)) rest), 0).
Proof.
  revert index; induction rest as [|line rest IH]; intros index; simpl.
  - reflexivity.
  - destruct (scan_line_returns line index 0) as (cs & Hcs & _).
    unfold fresh_scan at 1. rewrite Nat.add_0_r, Hcs, IH.
    do 4 f_equal. apply imap_ext. intros i x _. simpl. f_equal. lia.
Qed.

End Scan.

(** ** Where the comments of a file come from *)

Lemma scan_file_returns fileContent filePath prefixes :
  scan_file fileContent filePath prefixes
  = Some (extractComments fileContent filePath prefixes, 0).
Proof.
  unfold extractComments, scan_file. now rewrite forEach_returns.
Qed.

Lemma extractComments_by_line fileContent filePath prefixes :
  extractComments fileContent filePath prefixes
  = concat (imap (fresh_scan filePath (RegExp.alternatives prefixes)
                    (Str.split Str.LF fileContent))
              (Str.split Str.LF fileContent)).
Proof.
  unfold extractComments, scan_file. rewrite forEach_returns. simpl.
  reflexivity.
Qed.

Lemma fresh_scan_origin filePath alts lines index line c :
  In c (fresh_scan filePath alts lines index line) ->
  exists m, c = comment_of filePath lines index m.
Proof.
  unfold fresh_scan.
  destruct (scan_line_returns filePath alts lines line index 0) as (cs & -> & H).
  auto.
Qed.

Lemma extractComments_origin fileContent filePath prefixes c :
  In c (extractComments fileContent filePath prefixes) ->
  exists index m,
    index < length (Str.split Str.LF fileContent) /\
    c = comment_of filePath (Str.split Str.LF fileContent) index m.
Proof.
  rewrite extractComments_by_line. intros H.
  apply in_concat in H as (cs & Hcs & Hc).
  apply list_elem_of_In, elem_of_lookup_imap in Hcs as (i & line & -> & Hi).
  apply fresh_scan_origin in Hc as (m & ->).
  exists i, m. split; [|reflexivity]. now apply lookup_lt_Some in Hi.
Qed.

(** ** The context window *)

Lemma context_window_clipped (lines : list string) i :
  i < length lines ->
  context_window lines i
  = take (Nat.min i 5 + 1 + Nat.min (length lines - 1 - i) 5)
      (drop (i - Nat.min i 5) lines).
Proof.
  intros Hi. unfold context_window, slice, relative_index.
  set (n := length lines) in *.
  destruct (Z.ltb_spec (Z.max (Z.of_nat i - 5) 0) 0) as [?|_]; [lia|].
  destruct (Z.ltb_spec (Z.min (Z.of_nat i + 5) (Z.of_nat n - 1) + 1) 0) as [?|_];
    [lia|].
  f_equal; [lia|]. f_equal. lia.
Qed.

Lemma context_window_length (lines : list string) i :
  i < length lines ->
  length (context_window lines i)
  = Nat.min i 5 + 1 + Nat.min (length lines - 1 - i) 5.
Proof.
  intros Hi. rewrite context_window_clipped by assumption.
  rewrite length_take, length_drop. lia.
Qed.

(** ** Keys *)

Lemma toBase64_empty bs : Buffer.toBase64 bs = EmptyString -> bs = [].
Proof. destruct bs as [|a [|b [|c rest]]]; simpl; congruence. Qed.

Lemma from_empty s : Buffer.from s = [] -> s = EmptyString.
Proof.
  destruct s as [|c s]; [reflexivity|]. simpl. unfold Buffer.utf8_unit.
  destruct (N.ltb (N_of_ascii c) 128); discriminate.
Qed.

Lemma key_of_nonempty filePath index : key_of filePath index <> EmptyString.
Proof.
  unfold key_of. intros H. apply toBase64_empty, from_empty in H.
  destruct filePath; discriminate.
Qed.

(** ** Lines without an inner line terminator *)

Lemma take_while_every f s : Str.every f s = true -> Str.take_while f s = s.
Proof.
  induction s as [|c s IH]; simpl; [reflexivity|].
  destruct (f c); simpl; [|discriminate]. intros H. now rewrite IH.
Qed.

Lemma every_drop f n s : Str.every f s = true -> Str.every f (Str.drop n s) = true.
Proof.
  revert s; induction n as [|n IH]; intros [|c s]; simpl; auto.
  intros H. apply andb_prop in H as [_ H]. auto.
Qed.

Lemma after_prefix_to_end p rest m :
  Str.every Str.is_dot rest = true ->
  RegExp.after_prefix p rest = Some m ->
  RegExp.matched m = String.length p + String.length rest.
Proof.
  unfold RegExp.after_prefix. destruct rest as [|c rest]; [discriminate|].
  simpl. intros Hrest. apply andb_prop in Hrest as [_ Hrest].
  destruct (Ascii.eqb c Str.colon); [|discriminate].
  intros [= <-]; simpl.
  pose proof (strlen_take_while Str.is_space rest) as Hws.
  rewrite (take_while_every Str.is_dot) by (apply every_drop; exact Hrest).
  rewrite strlen_drop. lia.
Qed.

Lemma match_here_to_end alts s m :
  Str.every Str.is_dot s = true ->
  RegExp.match_here alts s = Some m -> RegExp.matched m = String.length s.
Proof.
  intros Hs. induction alts as [|p alts IH]; simpl; [discriminate|].
  destruct (String.prefix p s) eqn:Hp; [|exact IH].
  destruct (RegExp.after_prefix p (Str.drop (String.length p) s)) as [m'|] eqn:Ha;
    [|exact IH].
  intros [= <-]. apply after_prefix_to_end in Ha; [|apply every_drop; exact Hs].
  rewrite strlen_drop in Ha. apply prefix_length in Hp. lia.
Qed.

Lemma search_to_end alts s pos start m :
  Str.every Str.is_dot s = true ->
  RegExp.search alts s pos = Some (start, m) ->
  start + RegExp.matched m = pos + String.length s.
Proof.
  revert pos; induction s as [|c s IH]; intros pos Hs; simpl.
  - destruct (RegExp.match_here alts EmptyString) as [m'|] eqn:Hm; [|discriminate].
    apply match_here_bounds in Hm. simpl in Hm. lia.
  - destruct (RegExp.match_here alts (String c s)) as [m'|] eqn:Hm.
    + intros [= <- <-]. apply match_here_to_end in Hm; [|exact Hs].
      simpl in Hm. lia.
    + intros H. simpl in Hs. apply andb_prop in Hs as [_ Hs].
      apply IH in H; [lia|exact Hs].
Qed.

Lemma exec_at_end alts line :
  RegExp.exec alts line (String.length line) = (None, 0).
Proof.
  destruct (exec_cases alts line (String.length line))
    as [(m & li & _ & H & _)|H]; [lia|exact H].
Qed.

Lemma fresh_scan_at_most_one filePath alts lines index line :
  Str.every Str.is_dot line = true ->
  length (fresh_scan filePath alts lines index line) <= 1.
Proof.
  intros Hline. unfold fresh_scan, scan_line. simpl.
  unfold RegExp.exec at 1. simpl.
  destruct (RegExp.search alts line 0) as [[start m]|] eqn:Hs; [|simpl; lia].
  pose proof (search_to_end _ _ _ _ _ Hline Hs) as Hend.
  pose proof (search_bounds _ _ _ _ _ Hs) as (_ & Hm & _).
  simpl in Hend. rewrite Hend.
  destruct (String.length line) as [|n] eqn:Hn; [lia|].
  simpl. rewrite <- Hn, exec_at_end. simpl. lia.
Qed.

(** ** Extraction: the claims *)

Example sample_comment_extracted :
  extractComments sample_line "src/a.ts" sample_prefixes = [sample_comment].
Proof. reflexivity. Qed.

Example sample_issue_key :
  GitHubIssue.key sample_issue = Comment.key sample_comment.
Proof. reflexivity. Qed.

(** C1 on one input: with the prefixes [TODO] and [FIXME], the line
    [// TODO: x FIXME: y] gives one annotation, of type [TODO] and content
    [x FIXME: y], where two are expected, [TODO] with content [x] and
    [FIXME] with content [y].  Group 2 of the pattern takes the rest of the
    line, so the loop over the matches of a line, written to collect
    several of them, finds nothing behind the first. *)
Theorem C1_second_prefix_is_swallowed :
  map (fun c => (Comment.type c, Comment.content c))
    (extractComments sample_line "src/a.ts" sample_prefixes)
  = [("TODO", "x FIXME: y")] /\
  ~ yields_todo_x_and_fixme_y
      (extractComments sample_line "src/a.ts" sample_prefixes).
Proof.
  split; [reflexivity|].
  intros (c1 & c2 & H & _). vm_compute in H. discriminate.
Qed.

(** C8: the context of an annotation on line [i] (0-based) of a file of [N]
    lines is the window of lines [i-5 .. i+5] clipped to the file; it has
    [min(i,5) + 1 + min(N-1-i,5)] lines, between 1 and 11, all of them lines
    of the file. *)
Theorem C8_context_window fileContent filePath prefixes c :
  In c (extractComments fileContent filePath prefixes) ->
  let lines := Str.split Str.LF fileContent in
  let N := length lines in
  let i := Comment.line c - 1 in
  let window := context_window lines i in
  i < N /\
  Comment.message c = Str.join Str.nl window /\
  window = take (Nat.min i 5 + 1 + Nat.min (N - 1 - i) 5)
             (drop (i - Nat.min i 5) lines) /\
  length window = Nat.min i 5 + 1 + Nat.min (N - 1 - i) 5 /\
  1 <= length window <= 11 /\
  (i - Nat.min i 5) + length window <= N.
Proof.
  intros Hc lines N i window.
  apply extractComments_origin in Hc as (index & m & Hindex & ->).
  assert (i = index) as -> by (subst i; simpl; lia).
  fold lines in Hindex. fold N in Hindex.
  pose proof (context_window_length lines index Hindex) as Hlen.
  fold N in Hlen. fold window in Hlen.
  repeat split.
  - exact Hindex.
  - apply context_window_clipped. exact Hindex.
  - exact Hlen.
  - lia.
  - lia.
  - lia.
Qed.

Lemma C8_context_window_witness :
  length (context_window (Str.split Str.LF ten_lines) 6) = 5 + 1 + 3.
Proof.
  refine (proj1 (proj2 (proj2 (proj2
            (C8_context_window ten_lines "a.ts" ["TODO"]
               {| Comment.type := "TODO"; Comment.content := "g";
                  Comment.file := "a.ts"; Comment.line := 7;
                  Comment.message :=
                    Str.join Str.nl
                      ["b"; "c"; "d"; "e"; "f"; "TODO: g"; "h"; "i"; "j"];
                  Comment.key := "YS50czo3" |} _))))).
  vm_compute. left. reflexivity.
Defined.

Lemma extracted_key_nonempty fileContent filePath prefixes c :
  In c (extractComments fileContent filePath prefixes) ->
  Comment.key c <> EmptyString.
Proof.
  intros Hc. apply extractComments_origin in Hc as (index & m & _ & ->).
  apply key_of_nonempty.
Qed.

Lemma extractComments_extracted fileContent filePath prefixes :
  Forall extracted (extractComments fileContent filePath prefixes).
Proof.
  apply Forall_forall. intros c Hc. apply list_elem_of_In in Hc.
  now exists fileContent, filePath, prefixes.
Qed.

(** C10: the key of an extracted annotation is the base64 text of
    [<filePath>:<line>] with [line >= 1]; it is never the empty string, so it
    differs from the key of an issue without a key marker, and the issue
    found for an annotation never has the empty key. *)
Theorem C10_keys_nonempty fileContent filePath prefixes c :
  In c (extractComments fileContent filePath prefixes) ->
  1 <= Comment.line c /\
  Comment.key c
  = Buffer.toBase64
      (Buffer.from (filePath +:+ ":" +:+ Str.of_nat (Comment.line c))) /\
  Comment.key c <> EmptyString /\
  (forall body, parseIssueKey body = EmptyString ->
                Comment.key c <> parseIssueKey body) /\
  (forall existingIssues issue,
      GitHubIssue.key issue = EmptyString ->
      findExisting existingIssues c <> Some issue).
Proof.
  intros Hc.
  apply extractComments_origin in Hc as (index & m & _ & ->). simpl.
  pose proof (key_of_nonempty filePath index) as Hne.
  repeat split.
  - lia.
  - exact Hne.
  - intros body ->. exact Hne.
  - intros existingIssues issue Hkey Hfind.
    apply find_some in Hfind as [_ Heq].
    apply String.eqb_eq in Heq. simpl in Heq. congruence.
Qed.

Lemma C10_keys_nonempty_witness : Comment.key sample_comment <> EmptyString.
Proof.
  refine (proj1 (proj2 (proj2
            (C10_keys_nonempty sample_line "src/a.ts" sample_prefixes
               sample_comment _)))).
  rewrite sample_comment_extracted. left. reflexivity.
Defined.

(** ** Reconciliation *)

Lemma findExisting_Some existingIssues comment issue :
  findExisting existingIssues comment = Some issue ->
  In issue existingIssues /\ GitHubIssue.key issue = Comment.key comment.
Proof.
  intros H. apply find_some in H as [Hin Heq].
  apply String.eqb_eq in Heq. auto.
Qed.

Lemma findExisting_None existingIssues comment :
  findExisting existingIssues comment = None ->
  forall issue, In issue existingIssues ->
                GitHubIssue.key issue <> Comment.key comment.
Proof.
  intros H issue Hin. apply (find_none _ _ H) in Hin.
  now apply String.eqb_neq in Hin.
Qed.

Lemma findExisting_is_Some existingIssues comment issue :
  In issue existingIssues ->
  GitHubIssue.key issue = Comment.key comment ->
  exists found, findExisting existingIssues comment = Some found.
Proof.
  intros Hin Hkey.
  destruct (findExisting existingIssues comment) as [found|] eqn:H; [eauto|].
  now apply (findExisting_None _ _ H) in Hin.
Qed.

Lemma in_toUpdate existingIssues foundComments issue comment :
  In (issue, comment) (toUpdate existingIssues foundComments) <->
  In comment foundComments /\ findExisting existingIssues comment = Some issue.
Proof.
  induction foundComments as [|c rest IH]; simpl; [tauto|].
  destruct (findExisting existingIssues c) as [found|] eqn:Hc; simpl;
    rewrite IH; split.
  - intros [[= <- <-]|[H1 H2]]; auto.
  - intros [[<-|H1] H2]; [left; congruence|auto].
  - intros [H1 H2]; auto.
  - intros [[<-|H1] H2]; [congruence|auto].
Qed.

Lemma in_toCreate existingIssues foundComments comment :
  In comment (toCreate existingIssues foundComments) <->
  In comment foundComments /\ findExisting existingIssues comment = None.
Proof.
  induction foundComments as [|c rest IH]; simpl; [tauto|].
  destruct (findExisting existingIssues c) as [found|] eqn:Hc; simpl;
    rewrite IH; split.
  - intros [H1 H2]; auto.
  - intros [[<-|H1] H2]; [congruence|auto].
  - intros [<-|[H1 H2]]; auto.
  - intros [[<-|H1] H2]; auto.
Qed.

Lemma in_issuesToClose existingIssues foundComments issue :
  In issue (issuesToClose existingIssues foundComments) <->
  In issue existingIssues /\
  forall comment, In comment foundComments ->
                  Comment.key comment <> GitHubIssue.key issue.
Proof.
  unfold issuesToClose. rewrite filter_In, negb_true_iff.
  split; intros [Hin H]; split; auto.
  - intros comment Hc Heq.
    assert (existsb (fun comment => String.eqb (Comment.key comment)
                                      (GitHubIssue.key issue)) foundComments
            = true) as Hex; [|congruence].
    apply existsb_exists. exists comment. split; [assumption|].
    now apply String.eqb_eq.
  - apply not_true_is_false. intros Hex.
    apply existsb_exists in Hex as (comment & Hc & Heq).
    apply String.eqb_eq in Heq. now apply (H comment).
Qed.

Lemma elem_of_annotationKeys k foundComments :
  k ∈ annotationKeys foundComments <->
  exists comment, In comment foundComments /\ Comment.key comment = k.
Proof.
  unfold annotationKeys.
  rewrite elem_of_list_to_set, list_elem_of_In, in_map_iff.
  split; intros (c & ? & ?); eauto.
Qed.

Lemma elem_of_issueKeys k existingIssues :
  k ∈ issueKeys existingIssues <->
  exists issue, In issue existingIssues /\ GitHubIssue.key issue = k.
Proof.
  unfold issueKeys.
  rewrite elem_of_list_to_set, list_elem_of_In, in_map_iff.
  split; intros (c & ? & ?); eauto.
Qed.

Lemma elem_of_matchedKeys k existingIssues foundComments :
  k ∈ matchedKeys existingIssues foundComments <->
  k ∈ annotationKeys foundComments /\ k ∈ issueKeys existingIssues.
Proof.
  unfold matchedKeys.
  rewrite elem_of_list_to_set, list_elem_of_In, in_map_iff.
  rewrite elem_of_annotationKeys, elem_of_issueKeys. split.
  - intros ([issue comment] & <- & H). apply in_toUpdate in H as [Hc Hf].
    apply findExisting_Some in Hf as [Hi Hk]. simpl. split; eauto.
  - intros [(comment & Hc & <-) (issue & Hi & Hk)].
    destruct (findExisting_is_Some _ _ _ Hi Hk) as (found & Hf).
    exists (found, comment). split; [reflexivity|].
    apply in_toUpdate. auto.
Qed.

Lemma elem_of_createKeys k existingIssues foundComments :
  k ∈ createKeys existingIssues foundComments <->
  k ∈ annotationKeys foundComments /\ k ∉ issueKeys existingIssues.
Proof.
  unfold createKeys.
  rewrite elem_of_list_to_set, list_elem_of_In, in_map_iff.
  rewrite elem_of_annotationKeys, elem_of_issueKeys. split.
  - intros (comment & <- & H). apply in_toCreate in H as [Hc Hf].
    split; [eauto|]. intros (issue & Hi & Hk).
    now apply (findExisting_None _ _ Hf) in Hi.
  - intros [(comment & Hc & <-) Hno].
    exists comment. split; [reflexivity|]. apply in_toCreate. split; [assumption|].
    destruct (findExisting existingIssues comment) as [found|] eqn:Hf;
      [|reflexivity].
    apply findExisting_Some in Hf as [Hi Hk]. exfalso. apply Hno. eauto.
Qed.

Lemma elem_of_closeKeys k existingIssues foundComments :
  k ∈ closeKeys existingIssues foundComments <->
  k ∈ issueKeys existingIssues /\ k ∉ annotationKeys foundComments.
Proof.
  unfold closeKeys.
  rewrite elem_of_list_to_set, list_elem_of_In, in_map_iff.
  rewrite elem_of_annotationKeys, elem_of_issueKeys. split.
  - intros (issue & <- & H). apply in_issuesToClose in H as [Hi Hno].
    split; [eauto|]. intros (comment & Hc & Hk). now apply (Hno comment).
  - intros [(issue & Hi & <-) Hno].
    exists issue. split; [reflexivity|]. apply in_issuesToClose.
    split; [assumption|]. intros comment Hc Hk. apply Hno. eauto.
Qed.

(** The keys updated, created and closed partition the keys at hand:
    updated and created keys are the annotation keys, updated and closed
    keys are the issue keys, and the three sets are pairwise disjoint. *)
Lemma key_sets_partition existingIssues foundComments :
  matchedKeys existingIssues foundComments
    ∪ createKeys existingIssues foundComments
  = annotationKeys foundComments /\
  matchedKeys existingIssues foundComments
    ∪ closeKeys existingIssues foundComments
  = issueKeys existingIssues /\
  matchedKeys existingIssues foundComments
    ## createKeys existingIssues foundComments /\
  matchedKeys existingIssues foundComments
    ## closeKeys existingIssues foundComments /\
  createKeys existingIssues foundComments
    ## closeKeys existingIssues foundComments.
Proof.
  pose proof (fun k => elem_of_matchedKeys k existingIssues foundComments) as Hm.
  pose proof (fun k => elem_of_createKeys k existingIssues foundComments) as Hc.
  pose proof (fun k => elem_of_closeKeys k existingIssues foundComments) as Hx.
  repeat split.
  - apply set_eq. intros k. rewrite elem_of_union, Hm, Hc.
    destruct (decide (k ∈ issueKeys existingIssues)); tauto.
  - apply set_eq. intros k. rewrite elem_of_union, Hm, Hx.
    destruct (decide (k ∈ annotationKeys foundComments)); tauto.
  - apply elem_of_disjoint. intros k. rewrite Hm, Hc. tauto.
  - apply elem_of_disjoint. intros k. rewrite Hm, Hx. tauto.
  - apply elem_of_disjoint. intros k. rewrite Hc, Hx. tauto.
Qed.

(** ** Runs: the calls made *)

Lemma quiet_nil env log : quiet env log [].
Proof. intros i c H. destruct i; discriminate. Qed.

Lemma quiet_cons env log c calls :
  throws env log c = None -> quiet env (log ++ [c]) calls ->
  quiet env log (c :: calls).
Proof.
  intros Hc Hrest [|i] d; simpl.
  - intros [= <-]. now rewrite app_nil_r.
  - intros Hd. specialize (Hrest i d Hd).
    now rewrite <- app_assoc in Hrest.
Qed.

(** [perform] makes the calls in order and stops behind the first one
    that throws. *)
Lemma perform_spec env calls st :
  match perform env calls st with
  | (None, st') =>
      log st' = log st ++ calls /\ quiet env (log st) calls /\
      tracker st' = foldl (fun tr c => Tracker.apply c tr) (tracker st) calls
  | (Some e, st') =>
      exists pre c post,
        calls = pre ++ c :: post /\ quiet env (log st) pre /\
        throws env (log st ++ pre) c = Some e /\
        log st' = log st ++ pre ++ [c] /\
        tracker st' = foldl (fun tr c => Tracker.apply c tr) (tracker st) pre
  end.
Proof.
  revert st; induction calls as [|c calls IH]; intros st; simpl.
  - rewrite app_nil_r. auto using quiet_nil.
  - destruct (throws env (log st) c) as [e|] eqn:Hc.
    + exists [], c, calls. simpl. rewrite app_nil_r. auto using quiet_nil.
    + specialize (IH {| tracker := Tracker.apply c (tracker st);
                        log := log st ++ [c] |}).
      destruct (perform env calls _) as [[e|] st']; simpl in IH.
      * destruct IH as (pre & d & post & -> & Hq & Hd & Hlog & Htr).
        exists (c :: pre), d, post. simpl.
        rewrite <- app_assoc in Hd, Hlog. auto using quiet_cons.
      * destruct IH as (Hlog & Hq & Htr).
        rewrite <- app_assoc in Hlog. auto using quiet_cons.
Qed.

Lemma perform_app env a b st :
  perform env (a ++ b) st
  = match perform env a st with
    | (Some e, st') => (Some e, st')
    | (None, st') => perform env b st'
    end.
Proof.
  revert st; induction a as [|c a IH]; intros st; simpl; [reflexivity|].
  destruct (throws env (log st) c); [reflexivity|apply IH].
Qed.

Lemma bind_unfold {A B} (m : M A) (k : A -> M B) st :
  (m ≫= k) st
  = match m st with
    | (inl e, st') => (inl e, st')
    | (inr a, st') => k a st'
    end.
Proof. reflexivity. Qed.

Lemma invoke_perform env {A} c (value : Tracker.t -> A) st :
  invoke env c value st = outcome (value (tracker st)) (perform env [c] st).
Proof.
  unfold invoke. simpl. now destruct (throws env (log st) c).
Qed.

Lemma process_call env existingIssues comment :
  process env existingIssues comment
  = invoke env (call_for existingIssues comment) (fun _ => tt).
Proof.
  unfold process, call_for, title_of, description_of.
  destruct (generateIssueContent comment) as [title description]. simpl.
  now destruct (findExisting existingIssues comment).
Qed.

Lemma for_of_perform env {X} (xs : list X) (call : X -> Call) st :
  for_of xs (fun x => invoke env (call x) (fun _ => tt)) st
  = outcome tt (perform env (map call xs) st).
Proof.
  revert st; induction xs as [|x xs IH]; intros st; simpl; [reflexivity|].
  rewrite bind_unfold. unfold invoke at 1.
  destruct (throws env (log st) (call x)); [reflexivity|apply IH].
Qed.

Lemma for_of_process_perform env existingIssues foundComments st :
  for_of foundComments (process env existingIssues) st
  = outcome tt (perform env (map (call_for existingIssues) foundComments) st).
Proof.
  revert st; induction foundComments as [|c rest IH]; intros st; simpl;
    [reflexivity|].
  rewrite bind_unfold, process_call. unfold invoke at 1.
  destruct (throws env (log st) (call_for existingIssues c));
    [reflexivity|apply IH].
Qed.

Lemma collect_perform env prefixes sourceFiles foundComments st :
  collect env prefixes sourceFiles foundComments st
  = outcome
      (foundComments
       ++ concat (map (fun file => extractComments (contents env file) file
                                     prefixes) sourceFiles))
      (perform env (map ReadFile sourceFiles) st).
Proof.
  revert foundComments st.
  induction sourceFiles as [|file rest IH]; intros foundComments st; simpl.
  - now rewrite app_nil_r.
  - rewrite bind_unfold. unfold readFileContent, invoke at 1.
    destruct (throws env (log st) (ReadFile file)); [reflexivity|].
    rewrite IH, app_assoc. reflexivity.
Qed.

Lemma perform_reads_tracker env sourceFiles st :
  tracker (snd (perform env (map ReadFile sourceFiles) st)) = tracker st.
Proof.
  revert st; induction sourceFiles as [|file rest IH]; intros st; simpl;
    [reflexivity|].
  destruct (throws env (log st) (ReadFile file)); [reflexivity|].
  now rewrite IH.
Qed.

(** The [try] block makes the calls of the script, up to the first one
    that throws. *)
Lemma attempt_perform env st :
  attempt env st = outcome tt (perform env (script env (tracker st)) st).
Proof.
  unfold attempt, script, plan.
  rewrite bind_unfold. unfold fetchExistingIssues, invoke at 1.
  cbn [perform]. destruct (throws env (log st) GetIssues); [reflexivity|].
  rewrite bind_unfold. unfold listAllSourceFiles, invoke at 1.
  cbn [perform tracker log Tracker.apply].
  destruct (throws env _ (ReadDir _ _)); [reflexivity|].
  cbn [tracker log Tracker.apply].
  rewrite bind_unfold, collect_perform, perform_app.
  fold (sourceFiles_of env).
  set (st2 := {| tracker := tracker st; log := _ |}).
  destruct (perform env (map ReadFile (sourceFiles_of env)) st2)
    as [[e|] st3]; [reflexivity|].
  cbn [outcome app]. fold (found_in env (sourceFiles_of env)).
  rewrite bind_unfold.
  rewrite for_of_process_perform, perform_app.
  destruct (perform env (map (call_for _) _) st3) as [[e|] st4]; [reflexivity|].
  cbn [outcome]. apply for_of_perform.
Qed.

Lemma run_perform env st :
  run env st
  = (match fst (perform env (script env (tracker st)) st) with
     | Some e => reported e
     | None => None
     end,
     snd (perform env (script env (tracker st)) st)).
Proof.
  unfold run. rewrite attempt_perform.
  destruct (perform env (script env (tracker st)) st) as [[[message|]|] st'];
    reflexivity.
Qed.

(** C9: for plain prefixes, [extractComments] is a function of its three
    inputs, and the scan position of the pattern never carries over: every
    line leaves [lastIndex] at 0 whatever it was entered with, the scan of
    a file returns and leaves it at 0, the comments of a file are those of
    its lines, each scanned with [lastIndex = 0], and the comments a run
    collects are those of its files, each scanned on its own. *)
Theorem C9_no_scan_state fileContent filePath prefixes :
  plain_prefixes prefixes = true ->
  let alts := RegExp.alternatives prefixes in
  let lines := Str.split Str.LF fileContent in
  scan_file fileContent filePath prefixes
  = Some (extractComments fileContent filePath prefixes, 0) /\
  extractComments fileContent filePath prefixes
  = concat (imap (fresh_scan filePath alts lines) lines) /\
  (forall line index lastIndex,
      exists cs, scan_line filePath alts lines line index lastIndex = Some (cs, 0)) /\
  (forall env sourceFiles foundComments st,
      collect env prefixes sourceFiles foundComments st
      = outcome
          (foundComments
           ++ concat (map (fun file =>
                             extractComments (contents env file) file prefixes)
                        sourceFiles))
          (perform env (map ReadFile sourceFiles) st)) /\
  (forall fileContent' filePath' prefixes',
      (fileContent', filePath', prefixes') = (fileContent, filePath, prefixes) ->
      extractComments fileContent' filePath' prefixes'
      = extractComments fileContent filePath prefixes).
Proof.
  intros _ alts lines. split; [|split; [|split; [|split]]].
  - apply scan_file_returns.
  - apply extractComments_by_line.
  - intros line index lastIndex.
    destruct (scan_line_returns filePath alts lines line index lastIndex)
      as (cs & H & _).
    eauto.
  - intros env sourceFiles foundComments st. apply collect_perform.
  - intros ? ? ? [= -> -> ->]. reflexivity.
Qed.

Lemma C9_no_scan_state_witness :
  scan_file (sample_line_cr +:+ Str.nl +:+ sample_line) "src/a.ts"
    sample_prefixes
  = Some (extractComments (sample_line_cr +:+ Str.nl +:+ sample_line)
            "src/a.ts" sample_prefixes, 0) /\
  exists cs,
    scan_line "src/a.ts" (RegExp.alternatives sample_prefixes)
      (Str.split Str.LF (sample_line_cr +:+ Str.nl +:+ sample_line))
      sample_line 1 11
    = Some (cs, 0).
Proof.
  pose proof (C9_no_scan_state (sample_line_cr +:+ Str.nl +:+ sample_line)
                "src/a.ts" sample_prefixes eq_refl) as (Hfile & _ & Hline & _).
  split; [exact Hfile|apply Hline].
Defined.

Example refused_issue_aborts_run :
  fst (run env_refused empty_tracker) = Some "Validation Failed" /\
  Tracker.open (tracker (snd (run env_refused empty_tracker))) = [] /\
  length (log (snd (run env_refused empty_tracker))) = 4 /\
  length (script env_refused (tracker empty_tracker)) = 5.
Proof. vm_compute. auto. Qed.

Example unreadable_file_aborts_run :
  run env_unreadable empty_tracker
  = (Some "EACCES: permission denied",
     {| tracker := tracker empty_tracker;
        log := [GetIssues; ReadDir "src" ".ts"; ReadFile "src/a.ts"] |}).
Proof. reflexivity. Qed.

(** C3, as stated: whatever throws, the remaining keys and files are
    processed.  The tracker refuses the first of two issues: the run stops
    there, reports that one message, and never files the second issue. *)
Lemma C3_counterexample : ~ isolates_failures env_refused empty_tracker.
Proof.
  intros H.
  assert (In (PostIssue "FIXME in a.ts at line 2"
                (description_of
                   (comment_of "src/a.ts"
                      ["// TODO: first"; "// FIXME: second"] 1
                      {| RegExp.group1 := "FIXME";
                         RegExp.group2 := "second";
                         RegExp.matched := 13 |})))
            (script env_refused (tracker empty_tracker))) as Hin
    by (vm_compute; auto 10).
  apply H in Hin. vm_compute in Hin.
  repeat (destruct Hin as [Hin|Hin]; [discriminate Hin|]).
  exact Hin.
Qed.

(** C3, amended: with plain prefixes, a run makes the calls of its script
    in order and stops behind the first one that throws, be it a request to
    the tracker or the reading of a file: the calls behind it are not made,
    and what the run reports is the message of that one error. *)
Theorem C3_first_failure_aborts env st :
  plain_prefixes (prefixes_input env) = true ->
  (fst (run env st) = None /\
   log (snd (run env st)) = log st ++ script env (tracker st) /\
   quiet env (log st) (script env (tracker st))) \/
  (exists pre c post e,
      script env (tracker st) = pre ++ c :: post /\
      quiet env (log st) pre /\
      throws env (log st ++ pre) c = Some e /\
      log (snd (run env st)) = log st ++ pre ++ [c] /\
      fst (run env st) = reported e).
Proof.
  intros _. rewrite run_perform.
  pose proof (perform_spec env (script env (tracker st)) st) as H.
  destruct (perform env (script env (tracker st)) st) as [[e|] st'];
    cbn [fst snd].
  - right. destruct H as (pre & c & post & Hs & Hq & Hc & Hlog & _).
    exists pre, c, post, e. auto 10.
  - left. destruct H as (Hlog & Hq & _). auto.
Qed.

Lemma C3_first_failure_aborts_witness :
  (fst (run env_refused empty_tracker) = None /\
   log (snd (run env_refused empty_tracker))
   = log empty_tracker ++ script env_refused (tracker empty_tracker) /\
   quiet env_refused (log empty_tracker)
     (script env_refused (tracker empty_tracker))) \/
  (exists pre c post e,
      script env_refused (tracker empty_tracker) = pre ++ c :: post /\
      quiet env_refused (log empty_tracker) pre /\
      throws env_refused (log empty_tracker ++ pre) c = Some e /\
      log (snd (run env_refused empty_tracker))
      = log empty_tracker ++ pre ++ [c] /\
      fst (run env_refused empty_tracker) = reported e).
Proof.
  apply (C3_first_failure_aborts env_refused empty_tracker). reflexivity.
Defined.

(** C2, as stated: no issue to close has the empty key.  An issue filed by
    hand has no key marker, no annotation carries its empty key, and it is
    among the issues to close. *)
Lemma C2_counterexample :
  ~ never_closes_unkeyed [issue_of foreign_issue]
      (extractComments sample_line "src/a.ts" sample_prefixes).
Proof.
  intros H. apply (H (issue_of foreign_issue)); [|reflexivity].
  vm_compute. auto.
Qed.

(** C2, amended: an existing issue whose parsed key is the empty string is
    never matched by an extracted annotation and never updated, and it is
    always among the issues to close: the run requests its closing. *)
Theorem C2_unkeyed_issues_closed existingIssues foundComments issue :
  Forall extracted foundComments ->
  In issue existingIssues ->
  GitHubIssue.key issue = EmptyString ->
  (forall comment, In comment foundComments ->
                   findExisting existingIssues comment <> Some issue) /\
  (forall comment,
      ~ In (issue, comment) (toUpdate existingIssues foundComments)) /\
  In issue (issuesToClose existingIssues foundComments) /\
  In (PatchClosed (GitHubIssue.id issue)) (plan existingIssues foundComments).
Proof.
  intros Hfound Hin Hkey.
  assert (forall comment, In comment foundComments ->
                          Comment.key comment <> EmptyString) as Hne.
  { intros comment Hc. rewrite Forall_forall in Hfound.
    destruct (Hfound comment) as (fileContent & filePath & prefixes & Hx).
    - now apply list_elem_of_In.
    - now apply extracted_key_nonempty in Hx. }
  assert (In issue (issuesToClose existingIssues foundComments)) as Hclose.
  { apply in_issuesToClose. split; [assumption|].
    intros comment Hc. rewrite Hkey. auto. }
  split; [|split; [|split]].
  - intros comment Hc Hf. apply findExisting_Some in Hf as [_ Hk].
    apply (Hne comment Hc). congruence.
  - intros comment Hu. apply in_toUpdate in Hu as [Hc Hf].
    apply findExisting_Some in Hf as [_ Hk].
    apply (Hne comment Hc). congruence.
  - exact Hclose.
  - unfold plan. apply in_or_app. right.
    apply in_map_iff. exists issue. auto.
Qed.

Lemma C2_unkeyed_issues_closed_witness :
  In (PatchClosed 7)
    (plan [issue_of foreign_issue]
       (extractComments sample_line "src/a.ts" sample_prefixes)).
Proof.
  refine (proj2 (proj2 (proj2
            (C2_unkeyed_issues_closed [issue_of foreign_issue]
               (extractComments sample_line "src/a.ts" sample_prefixes)
               (issue_of foreign_issue) _ _ _)))).
  - apply extractComments_extracted.
  - simpl. left. reflexivity.
  - reflexivity.
Defined.

(** ** Update on every match *)

Lemma NoDup_map_eq {A B} (f : A -> B) (l : list A) a b :
  NoDup (map f l) -> In a l -> In b l -> f a = f b -> a = b.
Proof.
  induction l as [|x rest IH]; simpl; [tauto|].
  intros Hnd. apply NoDup_cons in Hnd as [Hx Hnd].
  rewrite list_elem_of_In, in_map_iff in Hx.
  intros [<-|Ha] [<-|Hb] Hk; auto.
  - exfalso. apply Hx. eauto.
  - exfalso. apply Hx. eauto.
Qed.

(** ** The key marker in annotation text *)

(** C4 on one input: the annotation of [// TODO: Key: abc] has the key
    [c3JjL2EudHM6MQ==], and the key parsed from its issue body is [abc]:
    the leftmost [Key: ] of the body is the one of the quoted comment. *)
Theorem C4_key_text_breaks_round_trip :
  map (fun c => (Comment.key c, parseIssueKey (description_of c)))
    (extractComments key_text_line "src/a.ts" sample_prefixes)
  = [("c3JjL2EudHM6MQ==", "abc")].
Proof. vm_compute. reflexivity. Qed.

(** C5 on one input: after a first run over [// TODO: Key: abc] on an
    empty tracker, where nothing throws, the one open issue has the parsed
    key [abc]; reconciling the same annotation against it creates the
    issue again and closes the one just filed. *)
Theorem C5_second_run_creates_and_closes :
  let st1 := snd (run env_key_text empty_tracker) in
  let existingIssues := map issue_of (Tracker.open (tracker st1)) in
  let foundComments := found_in env_key_text (sourceFiles_of env_key_text) in
  fst (run env_key_text empty_tracker) = None /\
  map GitHubIssue.key existingIssues = ["abc"] /\
  map Comment.key foundComments = ["c3JjL2EudHM6MQ=="] /\
  toCreate existingIssues foundComments = foundComments /\
  issuesToClose existingIssues foundComments = existingIssues /\
  drop 3 (log (snd (run env_key_text {| tracker := tracker st1; log := [] |})))
  = [PostIssue (title_of (comment_of "src/a.ts" [key_text_line] 0
                            {| RegExp.group1 := "TODO";
                               RegExp.group2 := "Key: abc";
                               RegExp.matched := 14 |}))
       (description_of (comment_of "src/a.ts" [key_text_line] 0
                          {| RegExp.group1 := "TODO";
                             RegExp.group2 := "Key: abc";
                             RegExp.matched := 14 |}));
     PatchClosed 1].
Proof. vm_compute. repeat split; reflexivity. Qed.

(** ** When the key does round-trip *)

Lemma append_assoc (a b c : string) : (a +:+ b) +:+ c = a +:+ (b +:+ c).
Proof.
  induction a as [|x a IH]; [reflexivity|].
  change (String x ((a +:+ b) +:+ c) = String x (a +:+ (b +:+ c))).
  f_equal. exact IH.
Qed.

Lemma strlen_append (a b : string) :
  String.length (a +:+ b) = String.length a + String.length b.
Proof.
  induction a as [|x a IH]; [reflexivity|].
  change (S (String.length (a +:+ b)) = S (String.length a) + String.length b).
  rewrite IH. reflexivity.
Qed.

Lemma prefix_append_false p a b :
  String.length p <= String.length a ->
  String.prefix p a = false -> String.prefix p (a +:+ b) = false.
Proof.
  revert a; induction p as [|c p IH]; intros [|d a]; simpl;
    try discriminate; try lia.
  intros Hlen. change (String d a +:+ b) with (String d (a +:+ b)). simpl.
  destruct (ascii_dec c d); [|reflexivity].
  apply IH. lia.
Qed.

(** Text above the marker line that holds no [Key: ] is skipped. *)
Lemma parseIssueKey_skips head rest :
  Str.includes "Key: " (head +:+ marker_line) = false ->
  parseIssueKey (head +:+ marker_line +:+ rest)
  = parseIssueKey (marker_line +:+ rest).
Proof.
  induction head as [|c head IH]; [reflexivity|].
  intros H. cbn [Str.includes String.append] in H.
  apply orb_false_elim in H as [Hp Hrest].
  specialize (IH Hrest).
  change ((String c head) +:+ marker_line +:+ rest)
    with (String c (head +:+ marker_line +:+ rest)).
  cbn [parseIssueKey]. rewrite <- IH.
  replace (String.prefix "Key: " (String c (head +:+ marker_line +:+ rest)))
    with false; [reflexivity|].
  symmetry. rewrite <- append_assoc.
  apply (prefix_append_false "Key: " (String c (head +:+ marker_line)) rest);
    [|exact Hp].
  simpl. rewrite strlen_append. simpl. lia.
Qed.

Lemma parseIssueKey_marker key :
  parseIssueKey (marker_line +:+ "Key: " +:+ key)
  = Str.take_while Str.is_dot key.
Proof. destruct key; reflexivity. Qed.

Lemma digit_is_dot n : Str.is_dot (Buffer.digit n) = true.
Proof.
  unfold Buffer.digit. generalize (N.to_nat n). intros k.
  do 64 (destruct k as [|k]; [reflexivity|]). reflexivity.
Qed.

Lemma toBase64_dots bs : Str.every Str.is_dot (Buffer.toBase64 bs) = true.
Proof.
  remember (length bs) as n eqn:Hn. revert bs Hn.
  induction n as [n IH] using lt_wf_ind. intros bs ->.
  destruct bs as [|a [|b [|c rest]]]; simpl; rewrite ?digit_is_dot;
    try reflexivity.
  apply (IH (length rest)); [simpl; lia|reflexivity].
Qed.

Lemma description_split comment :
  description_of comment
  = quoted_text comment +:+ marker_line +:+ "Key: " +:+ Comment.key comment.
Proof.
  unfold description_of, generateIssueContent, quoted_text, marker_line.
  cbn [snd]. rewrite !append_assoc. reflexivity.
Qed.

(** The key of an extracted annotation comes back from its generated body
    when the text quoted above the marker line holds no [Key: ]. *)
Lemma round_trip_without_key_text comment :
  extracted comment ->
  Str.includes "Key: " (quoted_text comment +:+ marker_line) = false ->
  round_trips comment.
Proof.
  intros (fileContent & filePath & prefixes & Hc) Hfree. unfold round_trips.
  rewrite description_split, parseIssueKey_skips, parseIssueKey_marker
    by exact Hfree.
  apply take_while_every.
  apply extractComments_origin in Hc as (index & m & _ & ->).
  apply toBase64_dots.
Qed.

Example sample_comment_round_trips : round_trips sample_comment.
Proof.
  apply round_trip_without_key_text; [|reflexivity].
  exists sample_line, "src/a.ts", sample_prefixes. left. reflexivity.
Qed.

(** ** Two runs in a row *)

Lemma entries_update n title body tr :
  (forall issue, In issue (Tracker.open tr) -> ApiIssue.number issue = n ->
                 parseIssueKey (ApiIssue.body issue) = parseIssueKey body) ->
  entries (Tracker.update n title body tr) = entries tr.
Proof.
  intros H. unfold entries, Tracker.update. simpl. rewrite map_map.
  apply map_ext_in. intros issue Hin.
  destruct (Nat.eqb_spec (ApiIssue.number issue) n) as [Hn|_]; [|reflexivity].
  unfold entry. simpl. now rewrite (H issue Hin Hn), Hn.
Qed.

Lemma entries_create title body tr :
  entries (Tracker.create title body tr)
  = entries tr ++ [(Tracker.next_number tr, parseIssueKey body)].
Proof. unfold entries, Tracker.create. simpl. now rewrite map_app. Qed.

Lemma in_entries_close n tr e :
  In e (entries (Tracker.close n tr)) <-> In e (entries tr) /\ fst e <> n.
Proof.
  unfold entries, Tracker.close. simpl. rewrite !in_map_iff. split.
  - intros (issue & <- & Hin). apply filter_In in Hin as [Hin Hn].
    apply negb_true_iff, Nat.eqb_neq in Hn. split; [eauto|exact Hn].
  - intros [(issue & <- & Hin) Hn]. exists issue. split; [reflexivity|].
    apply filter_In. split; [exact Hin|].
    now apply negb_true_iff, Nat.eqb_neq.
Qed.

Lemma in_entries_closes issues tr e :
  In e (entries
          (foldl (fun tr c => Tracker.apply c tr) tr
             (map (fun issue => PatchClosed (GitHubIssue.id issue)) issues)))
  <-> In e (entries tr) /\
      forall issue, In issue issues -> fst e <> GitHubIssue.id issue.
Proof.
  revert tr; induction issues as [|x rest IH]; intros tr; simpl.
  - tauto.
  - rewrite IH, in_entries_close. split.
    + intros [[He Hx] Hrest]. split; [exact He|].
      intros issue [<-|Hin]; auto.
    + intros [He H]. auto.
Qed.

Section Rerun.

Variable tr0 : Tracker.t.
Hypothesis numbered : well_numbered tr0.

Local Abbreviation existingIssues := (map issue_of (Tracker.open tr0)).

Lemma existing_origin issue :
  In issue existingIssues ->
  exists a, In a (Tracker.open tr0) /\ issue = issue_of a.
Proof.
  rewrite in_map_iff. intros (a & <- & Ha). eauto.
Qed.

Lemma entry_number_unique a b :
  In a (Tracker.open tr0) -> In b (Tracker.open tr0) ->
  ApiIssue.number a = ApiIssue.number b -> a = b.
Proof. apply NoDup_map_eq, numbered. Qed.

(** The second loop of a run leaves number and key of the issues that
    were open as they are, and files the new issues behind them. *)
Lemma updates_and_creates foundComments :
  forall tr extra,
    entries tr = entries tr0 ++ extra ->
    (forall e, In e extra -> Tracker.next_number tr0 <= fst e) ->
    Tracker.next_number tr0 <= Tracker.next_number tr ->
    (forall c, In c foundComments -> round_trips c) ->
    exists extra',
      entries (foldl (fun tr c => Tracker.apply c tr) tr
                 (map (call_for existingIssues) foundComments))
      = entries tr0 ++ extra' /\
      (forall e, In e extra' -> Tracker.next_number tr0 <= fst e) /\
      map snd extra'
      = map snd extra
        ++ map Comment.key (toCreate existingIssues foundComments).
Proof.
  induction foundComments as [|c rest IH]; intros tr extra Hent Hextra Hnext Hrt.
  - exists extra. simpl. rewrite app_nil_r. auto.
  - assert (round_trips c) as Hc by (apply Hrt; now left).
    assert (forall c', In c' rest -> round_trips c') as Hrest
        by (intros c' Hc'; apply Hrt; now right).
    simpl.
    assert (call_for existingIssues c
            = match findExisting existingIssues c with
              | Some found =>
                  PatchIssue (GitHubIssue.id found)
                    (title_of c) (description_of c)
              | None => PostIssue (title_of c) (description_of c)
              end) as -> by reflexivity.
    destruct (findExisting existingIssues c) as [found|] eqn:Hf;
      cbn [Tracker.apply].
    + apply findExisting_Some in Hf as [Hin Hkey].
      apply existing_origin in Hin as (a & Ha & ->). simpl in Hkey.
      apply IH; [|exact Hextra|exact Hnext|exact Hrest].
      rewrite entries_update; [exact Hent|].
      intros issue Hissue Hn. rewrite Hc, <- Hkey.
      assert (In (entry issue) (entries tr0 ++ extra)) as He.
      { rewrite <- Hent. unfold entries. now apply in_map. }
      apply in_app_or in He as [He|He].
      * unfold entries in He. apply in_map_iff in He as (b & Hb & Hbin).
        injection Hb as Hnum Hbody.
        assert (b = a) as -> by (apply entry_number_unique; auto; simpl in Hn; lia).
        symmetry. exact Hbody.
      * apply Hextra in He. simpl in He, Hn.
        destruct numbered as [_ Hlt]. specialize (Hlt a Ha). lia.
    + destruct (IH (Tracker.create (title_of c) (description_of c) tr)
                  (extra ++ [(Tracker.next_number tr, Comment.key c)]))
        as (extra' & H1 & H2 & H3); [| | |exact Hrest|].
      * rewrite entries_create, Hent, Hc, app_assoc. reflexivity.
      * intros e He. apply in_app_or in He as [He|[<-|[]]]; auto.
      * simpl. lia.
      * exists extra'. split; [exact H1|]. split; [exact H2|].
        rewrite H3, map_app, <- app_assoc. reflexivity.
Qed.

Lemma script_effect env foundComments :
  foundComments = found_in env (sourceFiles_of env) ->
  foldl (fun tr c => Tracker.apply c tr) tr0 (script env tr0)
  = foldl (fun tr c => Tracker.apply c tr)
      (foldl (fun tr c => Tracker.apply c tr) tr0
         (map (call_for existingIssues) foundComments))
      (map (fun issue => PatchClosed (GitHubIssue.id issue))
         (issuesToClose existingIssues foundComments)).
Proof.
  intros ->. unfold script, plan. cbn [foldl Tracker.apply].
  rewrite !foldl_app. f_equal. f_equal.
  induction (sourceFiles_of env) as [|file rest IH]; [reflexivity|exact IH].
Qed.

(** After a run in which nothing threw and every key round-trips, each
    annotation finds an open issue under its key and each open issue
    carries the key of an annotation. *)
Lemma rerun_keys env foundComments :
  foundComments = found_in env (sourceFiles_of env) ->
  (forall c, In c foundComments -> round_trips c) ->
  let tr1 := foldl (fun tr c => Tracker.apply c tr) tr0 (script env tr0) in
  (forall c, In c foundComments ->
             exists e, In e (entries tr1) /\ snd e = Comment.key c) /\
  (forall e, In e (entries tr1) ->
             exists c, In c foundComments /\ Comment.key c = snd e).
Proof.
  intros Hfound Hrt tr1. subst tr1. rewrite (script_effect env _ Hfound).
  destruct (updates_and_creates foundComments tr0 [])
    as (extra & Hent & Hextra & Hkeys);
    [now rewrite app_nil_r|intros e []|lia|exact Hrt|].
  simpl in Hkeys. destruct numbered as [_ Hlt]. split.
  - intros c Hc.
    destruct (findExisting existingIssues c) as [found|] eqn:Hf.
    + apply findExisting_Some in Hf as [Hin Hkey].
      apply existing_origin in Hin as (a & Ha & ->). simpl in Hkey.
      exists (entry a). split; [|exact Hkey].
      apply in_entries_closes. split.
      * rewrite Hent. apply in_or_app. left. unfold entries. now apply in_map.
      * intros issue Hissue Hid.
        apply in_issuesToClose in Hissue as [Hin Hno].
        apply existing_origin in Hin as (b & Hb & ->). simpl in Hid, Hno.
        assert (a = b) as <- by (apply entry_number_unique; auto).
        apply (Hno c Hc). symmetry. exact Hkey.
    + assert (In (Comment.key c) (map snd extra)) as He.
      { rewrite Hkeys. apply in_map. apply in_toCreate. auto. }
      apply in_map_iff in He as (e & Hk & He).
      exists e. split; [|exact Hk].
      apply in_entries_closes. split.
      * rewrite Hent. apply in_or_app. now right.
      * intros issue Hissue Hid.
        apply in_issuesToClose in Hissue as [Hin _].
        apply existing_origin in Hin as (b & Hb & ->). simpl in Hid.
        specialize (Hextra e He). specialize (Hlt b Hb). lia.
  - intros e He. apply in_entries_closes in He as [He Hopen].
    rewrite Hent in He. apply in_app_or in He as [He|He].
    + unfold entries in He. apply in_map_iff in He as (a & <- & Ha).
      assert (In (issue_of a) existingIssues) as Hin by now apply in_map.
      destruct (existsb (fun comment => String.eqb (Comment.key comment)
                                          (GitHubIssue.key (issue_of a)))
                  foundComments) eqn:Hex.
      * apply existsb_exists in Hex as (c & Hc & Heq).
        apply String.eqb_eq in Heq. eauto.
      * exfalso. apply (Hopen (issue_of a)); [|reflexivity].
        unfold issuesToClose. apply filter_In. split; [exact Hin|].
        now rewrite Hex.
    + assert (In (snd e) (map snd extra)) as Hk by now apply in_map.
      rewrite Hkeys in Hk. apply in_map_iff in Hk as (c & Hk & Hc).
      apply in_toCreate in Hc as [Hc _]. eauto.
Qed.

End Rerun.

Lemma quiet_run_tracker env st :
  (forall log c, throws env log c = None) ->
  tracker (snd (run env st))
  = foldl (fun tr c => Tracker.apply c tr) (tracker st)
      (script env (tracker st)).
Proof.
  intros Hquiet. rewrite run_perform. cbn [snd].
  pose proof (perform_spec env (script env (tracker st)) st) as H.
  destruct (perform env (script env (tracker st)) st) as [[e|] st'].
  - destruct H as (pre & c & post & _ & _ & Hc & _). now rewrite Hquiet in Hc.
  - destruct H as (_ & _ & Htr). exact Htr.
Qed.

(** Reconciliation is idempotent when the keys round-trip: after a run in
    which nothing threw, on a tracker whose open issues have distinct
    numbers, reconciling the same annotations again creates nothing and
    closes nothing. *)
Theorem idempotent_when_keys_round_trip env st :
  (forall log c, throws env log c = None) ->
  well_numbered (tracker st) ->
  (forall c, In c (found_in env (sourceFiles_of env)) -> round_trips c) ->
  let foundComments := found_in env (sourceFiles_of env) in
  let existingIssues :=
    map issue_of (Tracker.open (tracker (snd (run env st)))) in
  toCreate existingIssues foundComments = [] /\
  issuesToClose existingIssues foundComments = [].
Proof.
  intros Hquiet Hwf Hrt foundComments existingIssues.
  subst existingIssues. rewrite quiet_run_tracker by exact Hquiet.
  destruct (rerun_keys (tracker st) Hwf env foundComments eq_refl Hrt)
    as [Hfinds Hcarries].
  set (tr1 := foldl _ _ _) in *. split.
  - destruct (toCreate (map issue_of (Tracker.open tr1)) foundComments)
      as [|c rest] eqn:Hcreate; [reflexivity|].
    assert (In c (c :: rest)) as Hc by now left.
    rewrite <- Hcreate in Hc. apply in_toCreate in Hc as [Hc Hnone].
    destruct (Hfinds c Hc) as (e & He & Hk).
    unfold entries in He. apply in_map_iff in He as (a & <- & Ha).
    exfalso. apply (findExisting_None _ _ Hnone (issue_of a)).
    + now apply in_map.
    + exact Hk.
  - destruct (issuesToClose (map issue_of (Tracker.open tr1)) foundComments)
      as [|issue rest] eqn:Hclose; [reflexivity|].
    assert (In issue (issue :: rest)) as Hi by now left.
    rewrite <- Hclose in Hi. apply in_issuesToClose in Hi as [Hin Hno].
    apply in_map_iff in Hin as (a & <- & Ha).
    destruct (Hcarries (entry a)) as (c & Hc & Hk).
    + unfold entries. now apply in_map.
    + exfalso. exact (Hno c Hc Hk).
Qed.

Example sample_run_idempotent :
  let env := {| getInput := sample_input;
                files := fun _ _ => ["src/a.ts"];
                contents := fun _ => sample_line;
                throws := fun _ _ => None |} in
  let st1 := snd (run env empty_tracker) in
  let existingIssues := map issue_of (Tracker.open (tracker st1)) in
  toCreate existingIssues (found_in env (sourceFiles_of env)) = [] /\
  issuesToClose existingIssues (found_in env (sourceFiles_of env)) = [].
Proof.
  intros env. apply (idempotent_when_keys_round_trip env empty_tracker).
  - reflexivity.
  - split; [constructor|intros issue []].
  - intros c [<-|[]]. exact sample_comment_round_trips.
Qed.

(** ** The listing of the source tree *)

Section EntryInduction.

Variable P : Fs.Entry -> Prop.
Hypothesis on_file : P Fs.File.
Hypothesis on_unstatable : forall e, P (Fs.Unstatable e).
Hypothesis on_unreadable : forall err, P (Fs.Directory (inl err)).
Hypothesis on_directory :
  forall files,
    (forall file e, In (file, e) files -> P e) -> P (Fs.Directory (inr files)).

Lemma Entry_nested_ind : forall e, P e.
Proof.
  fix IH 1. intros [|[err|files]|e].
  - exact on_file.
  - apply on_unreadable.
  - apply on_directory. induction files as [|[file e] rest IHrest].
    + intros file e [].
    + intros file' e' [Heq|Hin].
      * injection Heq as _ <-. apply IH.
      * exact (IHrest file' e' Hin).
  - apply on_unstatable.
Qed.

End EntryInduction.

Section ListingFacts.

Variable join : string -> string -> string.
Variable extname : string -> string.
Variable fileExtension : string.

Local Abbreviation callback := (Fs.callback join extname fileExtension).
Local Abbreviation listed := (Fs.listed join extname fileExtension).

Lemma healthy_directory files :
  Fs.healthy (Fs.Directory (inr files)) = Fs.all_healthy files.
Proof.
  unfold Fs.all_healthy. simpl.
  induction files as [|[file e] rest IH]; simpl; [reflexivity|].
  now rewrite IH.
Qed.

Lemma listed_cons directoryPath file e rest p :
  listed directoryPath ((file, e) :: rest) p <->
  listed directoryPath [(file, e)] p \/ listed directoryPath rest p.
Proof.
  split.
  - intros H. inversion H as [d fs f Hin Hext|d fs f sub q Hin Hsub]; subst.
    + destruct Hin as [Heq|Hin].
      * left. apply Fs.listed_here; [rewrite Heq; now left|reflexivity].
      * right. now apply Fs.listed_here.
    + destruct Hin as [Heq|Hin].
      * left. apply (Fs.listed_below _ _ _ _ _ f sub); [rewrite Heq; now left|].
        exact Hsub.
      * right. now apply (Fs.listed_below _ _ _ _ _ f sub).
  - intros [H|H].
    + inversion H as [d fs f Hin Hext|d fs f sub q Hin Hsub]; subst.
      * destruct Hin as [Heq|[]]. apply Fs.listed_here; [rewrite Heq; now left|].
        reflexivity.
      * destruct Hin as [Heq|[]].
        apply (Fs.listed_below _ _ _ _ _ f sub); [rewrite Heq; now left|].
        exact Hsub.
    + inversion H as [d fs f Hin Hext|d fs f sub q Hin Hsub]; subst.
      * apply Fs.listed_here; [now right|reflexivity].
      * apply (Fs.listed_below _ _ _ _ _ f sub); [now right|exact Hsub].
Qed.

Lemma listed_nil directoryPath p : ~ listed directoryPath [] p.
Proof.
  intros H. inversion H as [d fs f Hin Hext|d fs f sub q Hin Hsub];
    destruct Hin.
Qed.

(** The loop over the entries of a directory, for entries on which the
    callback behaves. *)
Lemma forEach_entries_spec directoryPath files :
  (forall file e, In (file, e) files ->
     forall acc,
       match callback directoryPath file e acc with
       | (logged, inr out) =>
           logged = [] /\ Fs.healthy e = true /\
           exists found,
             out = acc ++ found /\
             forall p, In p found <-> listed directoryPath [(file, e)] p
       | (logged, inl err) =>
           Forall (fun x => x = err) logged /\ Fs.healthy e = false
       end) ->
  forall acc,
    match Fs.forEach_entries (callback directoryPath) files acc with
    | (logged, inr out) =>
        logged = [] /\ Fs.all_healthy files = true /\
        exists found,
          out = acc ++ found /\
          forall p, In p found <-> listed directoryPath files p
    | (logged, inl err) =>
        Forall (fun x => x = err) logged /\ Fs.all_healthy files = false
    end.
Proof.
  induction files as [|[file e] rest IH]; intros Hcb acc.
  - simpl. split; [reflexivity|]. split; [reflexivity|].
    exists []. split; [now rewrite app_nil_r|].
    intros p. split; [intros []|intros H; now apply listed_nil in H].
  - cbn [Fs.forEach_entries].
    pose proof (Hcb file e (or_introl eq_refl) acc) as He.
    destruct (callback directoryPath file e acc) as [logged [err|out]].
    + destruct He as [Hlog Hbad]. split; [exact Hlog|].
      unfold Fs.all_healthy. simpl. now rewrite Hbad.
    + destruct He as (-> & Hgood & found & -> & Hfound).
      assert (forall file' e', In (file', e') rest ->
                forall acc',
                  match callback directoryPath file' e' acc' with
                  | (logged, inr out) =>
                      logged = [] /\ Fs.healthy e' = true /\
                      exists found',
                        out = acc' ++ found' /\
                        forall p, In p found' <->
                                  listed directoryPath [(file', e')] p
                  | (logged, inl err) =>
                      Forall (fun x => x = err) logged /\ Fs.healthy e' = false
                  end) as Hrest
          by (intros file' e' Hin; apply Hcb; now right).
      specialize (IH Hrest (acc ++ found)).
      fold (Fs.forEach_entries (callback directoryPath)).
      destruct (Fs.forEach_entries (callback directoryPath) rest (acc ++ found))
        as [logged' [err|out]]; simpl.
      * destruct IH as [Hlog Hbad]. split; [exact Hlog|].
        unfold Fs.all_healthy in *. simpl. rewrite Hbad.
        now rewrite andb_false_r.
      * destruct IH as (-> & Hall & found' & -> & Hfound').
        split; [reflexivity|]. split.
        { unfold Fs.all_healthy in *. simpl. now rewrite Hgood, Hall. }
        exists (found ++ found'). split; [now rewrite app_assoc|].
        intros p. rewrite in_app_iff, listed_cons, Hfound, Hfound'. tauto.
Qed.

(** The [try] block with its [catch], given what the loop does. *)
Lemma catching_spec directoryPath readdir :
  (forall files, readdir = inr files ->
     forall file e, In (file, e) files ->
       forall acc,
         match callback directoryPath file e acc with
         | (logged, inr out) =>
             logged = [] /\ Fs.healthy e = true /\
             exists found,
               out = acc ++ found /\
               forall p, In p found <-> listed directoryPath [(file, e)] p
         | (logged, inl err) =>
             Forall (fun x => x = err) logged /\ Fs.healthy e = false
         end) ->
  match Fs.catching
          match readdir with
          | inl err => ([], inl err)
          | inr files => Fs.forEach_entries (callback directoryPath) files []
          end
  with
  | (logged, inr found) =>
      logged = [] /\
      exists files,
        readdir = inr files /\ Fs.all_healthy files = true /\
        forall p, In p found <-> listed directoryPath files p
  | (logged, inl err) =>
      logged <> [] /\ Forall (fun x => x = err) logged /\
      Fs.healthy (Fs.Directory readdir) = false
  end.
Proof.
  intros Hcb. destruct readdir as [err|files].
  - simpl. split; [discriminate|]. split; [|reflexivity].
    constructor; [reflexivity|constructor].
  - pose proof (forEach_entries_spec directoryPath files (Hcb files eq_refl) [])
      as H.
    destruct (Fs.forEach_entries (callback directoryPath) files [])
      as [logged [err|out]]; cbn [Fs.catching].
    + destruct H as [Hlog Hbad]. split; [now destruct logged|].
      split; [|now rewrite healthy_directory].
      apply Forall_app. split; [exact Hlog|]. constructor; [reflexivity|constructor].
    + destruct H as (-> & Hall & found & -> & Hfound).
      split; [reflexivity|]. exists files. auto.
Qed.

Lemma callback_spec e :
  forall directoryPath file acc,
    match callback directoryPath file e acc with
    | (logged, inr out) =>
        logged = [] /\ Fs.healthy e = true /\
        exists found,
          out = acc ++ found /\
          forall p, In p found <-> listed directoryPath [(file, e)] p
    | (logged, inl err) =>
        Forall (fun x => x = err) logged /\ Fs.healthy e = false
    end.
Proof.
  induction e as [|err|err|files IH] using Entry_nested_ind;
    intros directoryPath file acc.
  - cbn [Fs.callback].
    destruct (String.eqb_spec (extname file) fileExtension) as [Hext|Hext].
    + split; [reflexivity|]. split; [reflexivity|].
      exists [join directoryPath file]. split; [reflexivity|].
      intros p. split.
      * intros [<-|[]]. apply Fs.listed_here; [now left|exact Hext].
      * intros H. inversion H as [d fs f Hin Hx|d fs f sub q Hin Hsub]; subst.
        -- destruct Hin as [[= ->]|[]]. now left.
        -- destruct Hin as [[=]|[]].
    + split; [reflexivity|]. split; [reflexivity|].
      exists []. split; [now rewrite app_nil_r|].
      intros p. split; [intros []|].
      intros H. inversion H as [d fs f Hin Hx|d fs f sub q Hin Hsub]; subst.
      * destruct Hin as [[= ->]|[]]. contradiction.
      * destruct Hin as [[=]|[]].
  - cbn [Fs.callback]. split; [constructor|reflexivity].
  - cbn [Fs.callback Fs.catching app]. split; [|reflexivity].
    constructor; [reflexivity|constructor].
  - cbn [Fs.callback].
    pose proof (catching_spec (join directoryPath file) (inr files)) as H.
    cbv beta iota in H.
    destruct (Fs.catching
                (Fs.forEach_entries (callback (join directoryPath file)) files []))
      as [logged [err|found]].
    + destruct H as (_ & Hlog & Hbad).
      { intros files' [= <-] file' e' Hin. now apply (IH file' e'). }
      auto.
    + destruct H as (-> & files' & [= <-] & Hall & Hfound).
      { intros files' [= <-] file' e' Hin. now apply (IH file' e'). }
      split; [reflexivity|]. split; [now rewrite healthy_directory|].
      exists found. split; [reflexivity|].
      intros p. rewrite Hfound. split.
      * intros Hp. apply (Fs.listed_below _ _ _ _ _ file files); [now left|].
        exact Hp.
      * intros Hp. inversion Hp as [d fs f Hin Hx|d fs f sub q Hin Hsub]; subst.
        -- destruct Hin as [[=]|[]].
        -- destruct Hin as [[= -> ->]|[]]. exact Hsub.
Qed.

End ListingFacts.

(** X1: when [listAllSourceFiles] returns, nothing was logged and the paths
    returned are exactly those of the files with the extension found in the
    directory or, through readable directories, below it; a directory is
    walked whatever its name, never returned. *)
Theorem listing_returns_the_sources
    join extname fileExtension directoryPath readdir logged found :
  Fs.listAllSourceFiles join extname fileExtension directoryPath readdir
  = (logged, inr found) ->
  logged = [] /\
  exists files,
    readdir = inr files /\
    forall p,
      In p found <-> Fs.listed join extname fileExtension directoryPath files p.
Proof.
  intros H.
  pose proof (catching_spec join extname fileExtension directoryPath readdir)
    as Hspec.
  unfold Fs.listAllSourceFiles in H. rewrite H in Hspec.
  destruct Hspec as (-> & files & -> & _ & Hfound).
  - intros files _ file e _. apply callback_spec.
  - split; [reflexivity|]. exists files. auto.
Qed.

Lemma listing_returns_the_sources_witness :
  Fs.listed Fs.join_name Fs.extname_of_name ".ts" "src" sample_tree
    "src/lib.ts/b.ts".
Proof.
  destruct (listing_returns_the_sources Fs.join_name Fs.extname_of_name ".ts"
              "src" (inr sample_tree) [] ["src/a.ts"; "src/lib.ts/b.ts"])
    as (_ & files & Heq & H).
  - reflexivity.
  - injection Heq as <-. apply H. right. left. reflexivity.
Defined.


Example locked_directory_fails_the_listing :
  Fs.listAllSourceFiles Fs.join_name Fs.extname_of_name ".ts" "src"
    (inr locked_tree)
  = (repeat (ErrorObject "EACCES") 3, inl (ErrorObject "EACCES")).
Proof. reflexivity. Qed.

(** ** What a match looks like *)

Lemma append_String c a b : String c a +:+ b = String c (a +:+ b).
Proof. reflexivity. Qed.

Lemma append_empty_l b : EmptyString +:+ b = b.
Proof. reflexivity. Qed.

Lemma take_while_split f s :
  s = Str.take_while f s
      +:+ Str.drop (String.length (Str.take_while f s)) s.
Proof.
  induction s as [|c s IH]; simpl; [reflexivity|].
  destruct (f c); [|reflexivity].
  simpl. rewrite append_String. f_equal. exact IH.
Qed.

Lemma every_take_while f s : Str.every f (Str.take_while f s) = true.
Proof.
  induction s as [|c s IH]; simpl; [reflexivity|].
  destruct (f c) eqn:Hc; simpl; [|reflexivity]. now rewrite Hc.
Qed.

Lemma behind_take_while f s :
  match Str.drop (String.length (Str.take_while f s)) s with
  | String c _ => f c = false
  | EmptyString => True
  end.
Proof.
  induction s as [|c s IH]; simpl; [exact I|].
  destruct (f c) eqn:Hc; simpl; [exact IH|exact Hc].
Qed.

Lemma prefix_split p s :
  String.prefix p s = true -> s = p +:+ Str.drop (String.length p) s.
Proof.
  revert s; induction p as [|c p IH]; intros [|d s]; simpl;
    try reflexivity; try discriminate.
  destruct (ascii_dec c d) as [->|]; [|discriminate].
  intros H. rewrite append_String. f_equal. now apply IH.
Qed.

Lemma drop_drop n k s : Str.drop n (Str.drop k s) = Str.drop (k + n) s.
Proof.
  revert s; induction k as [|k IH]; intros s; simpl; [reflexivity|].
  destruct s as [|c s]; [now destruct n|]. apply IH.
Qed.

(** The text at a match: the alternative, a colon, white space, group 2,
    and behind it the end of the line or a line terminator. *)
Lemma after_prefix_shape p rest m :
  RegExp.after_prefix p rest = Some m ->
  exists ws tail,
    rest = ":" +:+ ws +:+ RegExp.group2 m +:+ tail /\
    RegExp.group1 m = p /\
    Str.every Str.is_space ws = true /\
    Str.every Str.is_dot (RegExp.group2 m) = true /\
    match RegExp.group2 m +:+ tail with
    | String c _ => Str.is_space c = false
    | EmptyString => True
    end /\
    match tail with
    | String c _ => Str.is_line_terminator c = true
    | EmptyString => True
    end.
Proof.
  unfold RegExp.after_prefix. destruct rest as [|c rest]; [discriminate|].
  destruct (Ascii.eqb_spec c Str.colon) as [->|]; [|discriminate].
  intros [= <-]. cbn [RegExp.group1 RegExp.group2].
  set (ws := Str.take_while Str.is_space rest).
  set (behind := Str.drop (String.length ws) rest).
  exists ws, (Str.drop (String.length (Str.take_while Str.is_dot behind)) behind).
  rewrite <- (take_while_split Str.is_dot behind).
  split; [|split; [|split; [|split; [|split]]]].
  - change (":" +:+ ws +:+ behind) with (String Str.colon (ws +:+ behind)).
    f_equal. apply take_while_split.
  - reflexivity.
  - apply every_take_while.
  - apply every_take_while.
  - exact (behind_take_while Str.is_space rest).
  - pose proof (behind_take_while Str.is_dot behind) as H.
    destruct (Str.drop _ behind) as [|d tail]; [exact I|].
    unfold Str.is_dot in H. now apply negb_false_iff in H.
Qed.

Lemma match_here_shape alts s m :
  RegExp.match_here alts s = Some m ->
  In (RegExp.group1 m) alts /\
  exists ws tail,
    s = RegExp.group1 m +:+ ":" +:+ ws +:+ RegExp.group2 m +:+ tail /\
    Str.every Str.is_space ws = true /\
    Str.every Str.is_dot (RegExp.group2 m) = true /\
    match RegExp.group2 m +:+ tail with
    | String c _ => Str.is_space c = false
    | EmptyString => True
    end /\
    match tail with
    | String c _ => Str.is_line_terminator c = true
    | EmptyString => True
    end.
Proof.
  induction alts as [|p alts IH]; simpl; [discriminate|].
  assert (RegExp.match_here alts s = Some m ->
          (p = RegExp.group1 m \/ In (RegExp.group1 m) alts) /\
          exists ws tail,
            s = RegExp.group1 m +:+ ":" +:+ ws +:+ RegExp.group2 m +:+ tail /\
            Str.every Str.is_space ws = true /\
            Str.every Str.is_dot (RegExp.group2 m) = true /\
            match RegExp.group2 m +:+ tail with
            | String c _ => Str.is_space c = false
            | EmptyString => True
            end /\
            match tail with
            | String c _ => Str.is_line_terminator c = true
            | EmptyString => True
            end) as Hnext
      by (intros H; apply IH in H as [H1 H2]; auto).
  destruct (String.prefix p s) eqn:Hp; [|exact Hnext].
  destruct (RegExp.after_prefix p (Str.drop (String.length p) s)) as [m'|] eqn:Ha;
    [|exact Hnext].
  intros [= <-].
  apply after_prefix_shape in Ha as (ws & tail & Hrest & Hg & Hws & Hbody & H1 & H2).
  split; [now left|]. exists ws, tail.
  split; [|auto]. rewrite Hg, <- Hrest. now apply prefix_split.
Qed.

Lemma search_finds alts s pos start m :
  RegExp.search alts s pos = Some (start, m) ->
  pos <= start /\ RegExp.match_here alts (Str.drop (start - pos) s) = Some m.
Proof.
  revert pos; induction s as [|c s IH]; intros pos; simpl.
  - destruct (RegExp.match_here alts EmptyString) as [m'|] eqn:Hm; [|discriminate].
    intros [= <- <-]. rewrite Nat.sub_diag. auto.
  - destruct (RegExp.match_here alts (String c s)) as [m'|] eqn:Hm.
    + intros [= <- <-]. rewrite Nat.sub_diag. auto.
    + intros H. apply IH in H as [Hle H]. split; [lia|].
      replace (start - pos) with (S (start - S pos)) by lia. exact H.
Qed.

Lemma exec_finds alts line lastIndex m lastIndex' :
  RegExp.exec alts line lastIndex = (Some m, lastIndex') ->
  exists start,
    lastIndex <= start /\
    RegExp.match_here alts (Str.drop start line) = Some m.
Proof.
  unfold RegExp.exec.
  destruct (Nat.ltb (String.length line) lastIndex); [discriminate|].
  destruct (RegExp.search alts (Str.drop lastIndex line) lastIndex)
    as [[start m']|] eqn:Hs; [|discriminate].
  intros [= <- <-]. apply search_finds in Hs as [Hle Hm].
  exists start. split; [exact Hle|].
  rewrite drop_drop in Hm. now replace (lastIndex + (start - lastIndex)) with start in Hm by lia.
Qed.

Lemma while_exec_finds filePath alts lines fuel line index lastIndex cs final :
  while_exec filePath alts lines fuel line index lastIndex = Some (cs, final) ->
  forall c, In c cs ->
    exists m start,
      c = comment_of filePath lines index m /\
      RegExp.match_here alts (Str.drop start line) = Some m.
Proof.
  revert lastIndex cs; induction fuel as [|fuel IH]; intros lastIndex cs;
    [discriminate|].
  simpl. destruct (RegExp.exec alts line lastIndex) as [[m|] li] eqn:He.
  - destruct (while_exec filePath alts lines fuel line index li)
      as [[cs' final']|] eqn:Hw; [|discriminate].
    intros [= <- <-] c [<-|Hc].
    + apply exec_finds in He as (start & _ & Hm). eauto.
    + exact (IH li cs' Hw c Hc).
  - intros [= <- <-] c [].
Qed.

(** Every comment of a file stands for a match of the pattern somewhere on
    its line. *)
Lemma extractComments_finds fileContent filePath prefixes c :
  In c (extractComments fileContent filePath prefixes) ->
  exists index line m start,
    Str.split Str.LF fileContent !! index = Some line /\
    c = comment_of filePath (Str.split Str.LF fileContent) index m /\
    RegExp.match_here (RegExp.alternatives prefixes) (Str.drop start line)
    = Some m.
Proof.
  rewrite extractComments_by_line. intros H.
  apply in_concat in H as (cs & Hcs & Hc).
  apply list_elem_of_In, elem_of_lookup_imap in Hcs as (i & line & -> & Hi).
  unfold fresh_scan, scan_line in Hc.
  destruct (while_exec _ _ _ _ line i 0) as [[cs final]|] eqn:Hw; [|destruct Hc].
  destruct (while_exec_finds _ _ _ _ _ _ _ _ _ Hw c Hc) as (m & start & -> & Hm).
  exists i, line, m, start. auto.
Qed.

(** X3: with plain prefixes, an extracted annotation quotes its line: its
    file is the path given, its type is one of the prefixes (the empty word
    when the list is empty), and somewhere on line [line] of the file stand
    the type, a colon, white space and the content, followed by the end of
    the line or a line terminator. *)
Theorem annotation_quotes_its_line fileContent filePath prefixes c :
  plain_prefixes prefixes = true ->
  In c (extractComments fileContent filePath prefixes) ->
  Comment.file c = filePath /\
  In (Comment.type c) (RegExp.alternatives prefixes) /\
  exists line start ws tail,
    Str.split Str.LF fileContent !! (Comment.line c - 1) = Some line /\
    Str.drop start line
    = Comment.type c +:+ ":" +:+ ws +:+ Comment.content c +:+ tail /\
    Str.every Str.is_space ws = true /\
    match tail with
    | String ch _ => Str.is_line_terminator ch = true
    | EmptyString => True
    end.
Proof.
  intros _ Hc.
  apply extractComments_finds in Hc as (index & line & m & start & Hline & -> & Hm).
  apply match_here_shape in Hm as (Hin & ws & tail & Hs & Hws & _ & _ & Htail).
  cbn [comment_of Comment.file Comment.type Comment.content Comment.line].
  split; [reflexivity|]. split; [exact Hin|].
  exists line, start, ws, tail.
  replace (index + 1 - 1) with index by lia. auto.
Qed.

Lemma annotation_quotes_its_line_witness :
  In (Comment.type sample_comment) (RegExp.alternatives sample_prefixes).
Proof.
  refine (proj1 (proj2
            (annotation_quotes_its_line sample_line "src/a.ts" sample_prefixes
               sample_comment eq_refl _))).
  rewrite sample_comment_extracted. left. reflexivity.
Defined.

(** X4: with plain prefixes, the content of an extracted annotation holds
    no line terminator and does not begin with white space. *)
Theorem content_is_one_trimmed_line fileContent filePath prefixes c :
  plain_prefixes prefixes = true ->
  In c (extractComments fileContent filePath prefixes) ->
  Str.every Str.is_dot (Comment.content c) = true /\
  match Comment.content c with
  | String ch _ => Str.is_space ch = false
  | EmptyString => True
  end.
Proof.
  intros _ Hc.
  apply extractComments_finds in Hc as (index & line & m & start & _ & -> & Hm).
  apply match_here_shape in Hm as (_ & ws & tail & _ & _ & Hbody & Hhead & _).
  cbn [comment_of Comment.content]. split; [exact Hbody|].
  destruct (RegExp.group2 m) as [|ch body]; [exact I|exact Hhead].
Qed.

Lemma content_is_one_trimmed_line_witness :
  Str.every Str.is_dot (Comment.content sample_comment) = true.
Proof.
  refine (proj1
            (content_is_one_trimmed_line sample_line "src/a.ts" sample_prefixes
               sample_comment eq_refl _)).
  rewrite sample_comment_extracted. left. reflexivity.
Defined.

(** ** Lines without a colon, prefixes without a word *)

Lemma match_here_needs_colon alts s :
  Str.every not_colon s = true -> RegExp.match_here alts s = None.
Proof.
  intros Hs. induction alts as [|p alts IH]; simpl; [reflexivity|].
  destruct (String.prefix p s); [|exact IH].
  pose proof (every_drop not_colon (String.length p) s Hs) as Hrest.
  unfold RegExp.after_prefix.
  destruct (Str.drop (String.length p) s) as [|c rest]; [exact IH|].
  simpl in Hrest. apply andb_prop in Hrest as [Hc _].
  unfold not_colon in Hc. apply negb_true_iff in Hc. now rewrite Hc.
Qed.

Lemma search_needs_colon alts s pos :
  Str.every not_colon s = true -> RegExp.search alts s pos = None.
Proof.
  revert pos; induction s as [|c s IH]; intros pos Hs; simpl;
    rewrite match_here_needs_colon by exact Hs; [reflexivity|].
  simpl in Hs. apply andb_prop in Hs as [_ Hs]. now apply IH.
Qed.

Lemma fresh_scan_needs_colon filePath alts lines index line :
  Str.every not_colon line = true ->
  fresh_scan filePath alts lines index line = [].
Proof.
  intros Hline. unfold fresh_scan, scan_line. simpl.
  unfold RegExp.exec. simpl.
  now rewrite search_needs_colon by exact Hline.
Qed.

Lemma every_split f sep s :
  Str.every f s = true ->
  forall line, In line (Str.split sep s) -> Str.every f line = true.
Proof.
  induction s as [|c s IH]; simpl.
  - intros _ line [<-|[]]. reflexivity.
  - intros H. apply andb_prop in H as [Hc Hs]. specialize (IH Hs).
    destruct (Ascii.eqb c sep).
    + intros line [<-|Hin]; [reflexivity|auto].
    + destruct (Str.split sep s) as [|h t].
      * intros line [<-|[]]. simpl. now rewrite Hc.
      * intros line [<-|Hin].
        -- simpl. rewrite Hc. apply IH. now left.
        -- apply IH. now right.
Qed.

Lemma concat_nil {A} (ls : list (list A)) :
  (forall l, In l ls -> l = []) -> concat ls = [].
Proof.
  induction ls as [|l ls IH]; simpl; [reflexivity|].
  intros H. rewrite (H l) by now left. apply IH. auto.
Qed.

(** X5: the pattern needs a colon: a file without a colon gives no
    annotation, whatever plain words the prefixes are. *)
Theorem no_colon_no_annotation fileContent filePath prefixes :
  plain_prefixes prefixes = true ->
  Str.every not_colon fileContent = true ->
  extractComments fileContent filePath prefixes = [].
Proof.
  intros _ H. rewrite extractComments_by_line. apply concat_nil.
  intros cs Hcs.
  apply list_elem_of_In, elem_of_lookup_imap in Hcs as (i & line & -> & Hi).
  apply fresh_scan_needs_colon. apply (every_split not_colon Str.LF fileContent H).
  apply list_elem_of_In. eapply list_elem_of_lookup_2. exact Hi.
Qed.

Lemma no_colon_no_annotation_witness :
  extractComments ("// TODO fix this" +:+ Str.nl +:+ "// FIXME later")
    "src/a.ts" sample_prefixes = [].
Proof. apply no_colon_no_annotation; reflexivity. Defined.

Lemma match_here_empty_alternative alts s :
  In EmptyString alts ->
  String.prefix ":" s = true ->
  exists m, RegExp.match_here alts s = Some m.
Proof.
  intros Hin Hs. apply prefix_split in Hs.
  change (s = String ":" (Str.drop 1 s)) in Hs. revert Hs.
  generalize (Str.drop 1 s). intros rest ->.
  induction alts as [|p alts IH]; [destruct Hin|].
  cbn [RegExp.match_here].
  destruct (String.prefix p (String ":" rest)) eqn:Hp.
  - destruct (RegExp.after_prefix p (Str.drop (String.length p) (String ":" rest)))
      as [m|] eqn:Ha.
    + exists m. reflexivity.
    + destruct Hin as [->|Hin]; [cbv in Ha; discriminate Ha|auto].
  - destruct Hin as [->|Hin]; [cbv in Hp; discriminate Hp|auto].
Qed.

Lemma search_empty_alternative alts s pos :
  In EmptyString alts ->
  Str.includes ":" s = true ->
  exists start m, RegExp.search alts s pos = Some (start, m).
Proof.
  intros Hin. revert pos; induction s as [|c s IH]; intros pos Hs.
  - discriminate Hs.
  - cbn [RegExp.search].
    destruct (RegExp.match_here alts (String c s)) as [m|] eqn:Hm; [eauto|].
    cbn [Str.includes] in Hs. apply orb_true_iff in Hs as [Hs|Hs].
    + destruct (match_here_empty_alternative alts _ Hin Hs) as (m & Hm').
      congruence.
    + apply IH. exact Hs.
Qed.

Lemma includes_nonempty p s :
  Str.includes p s = true -> p <> EmptyString -> 1 <= String.length s.
Proof. destruct s; [destruct p; [congruence|discriminate]|simpl; lia]. Qed.

(** X6: an empty prefix matches at every colon.  With an empty word among
    plain prefixes (an empty list, an empty input, a comma at the end of an
    input of plain words), every line that holds a colon gives an
    annotation. *)
Theorem empty_prefix_matches_every_colon filePath prefixes lines index line :
  plain_prefixes prefixes = true ->
  In EmptyString (RegExp.alternatives prefixes) ->
  Str.includes ":" line = true ->
  fresh_scan filePath (RegExp.alternatives prefixes) lines index line <> [].
Proof.
  intros _ Hin Hline. unfold fresh_scan, scan_line.
  cbn [while_exec]. unfold RegExp.exec at 1. cbn [Nat.ltb Nat.leb Str.drop].
  destruct (search_empty_alternative _ line 0 Hin Hline) as (start & m & Hs).
  rewrite Hs.
  pose proof (search_bounds _ _ _ _ _ Hs) as (_ & Hm & Hend & _).
  destruct (while_exec_returns filePath (RegExp.alternatives prefixes) lines
              (String.length line) line index (start + RegExp.matched m))
    as (cs & -> & _); [|lia|discriminate].
  apply includes_nonempty in Hline; [exact Hline|discriminate].
Qed.

Lemma empty_prefix_matches_every_colon_witness :
  fresh_scan "src/a.ts" (RegExp.alternatives []) ["const x: number = 1"] 0
    "const x: number = 1" <> [].
Proof.
  apply empty_prefix_matches_every_colon; [|left|]; reflexivity.
Defined.

Example unset_input_gives_the_empty_prefix env :
  getInput env "comment-prefixes" = EmptyString ->
  prefixes_input env = [EmptyString].
Proof. unfold prefixes_input. now intros ->. Qed.

(** ** Prefixes that end in a colon *)

Lemma includes_prefix p s : String.prefix p s = true -> Str.includes p s = true.
Proof. intros H. destruct s; cbn [Str.includes]; now rewrite H. Qed.

Lemma prefix_append p b : String.prefix p (p +:+ b) = true.
Proof.
  induction p as [|c p IH].
  - rewrite append_empty_l. now destruct b.
  - rewrite append_String. simpl. now destruct (ascii_dec c c).
Qed.

Lemma includes_append p a b : Str.includes p (a +:+ p +:+ b) = true.
Proof.
  induction a as [|c a IH].
  - rewrite append_empty_l. apply includes_prefix, prefix_append.
  - rewrite append_String. simpl. rewrite IH. apply orb_true_r.
Qed.

Lemma match_here_two_colons alts s m :
  (forall p, In p alts -> exists word, p = word +:+ ":") ->
  RegExp.match_here alts s = Some m -> Str.includes "::" s = true.
Proof.
  intros Halts Hm.
  apply match_here_shape in Hm as (Hin & ws & tail & -> & _).
  destruct (Halts _ Hin) as (word & ->).
  rewrite append_assoc.
  change (":" +:+ ":" +:+ ws +:+ RegExp.group2 m +:+ tail)
    with ("::" +:+ ws +:+ RegExp.group2 m +:+ tail).
  apply includes_append.
Qed.

Lemma search_two_colons alts s pos :
  (forall p, In p alts -> exists word, p = word +:+ ":") ->
  Str.includes "::" s = false -> RegExp.search alts s pos = None.
Proof.
  intros Halts. revert pos; induction s as [|c s IH]; intros pos Hs;
    cbn [RegExp.search].
  - destruct (RegExp.match_here alts EmptyString) as [m|] eqn:Hm; [|reflexivity].
    apply (match_here_two_colons _ _ _ Halts) in Hm. congruence.
  - destruct (RegExp.match_here alts (String c s)) as [m|] eqn:Hm.
    + apply (match_here_two_colons _ _ _ Halts) in Hm. congruence.
    + apply IH. cbn [Str.includes] in Hs. now apply orb_false_elim in Hs as [_ Hs].
Qed.

(** X7: a prefix is followed by the colon of the pattern, so a prefix
    written with its colon, as in [run(['TODO:', 'FIXME:', 'BUG:',
    'NOTE:'])], asks for two colons in a row: a line without [::] gives no
    annotation when every prefix is a plain word that ends in a colon. *)
Theorem prefix_with_colon_needs_two_colons filePath prefixes lines index line :
  plain_prefixes prefixes = true ->
  (forall p, In p (RegExp.alternatives prefixes) ->
             exists word, p = word +:+ ":") ->
  Str.includes "::" line = false ->
  fresh_scan filePath (RegExp.alternatives prefixes) lines index line = [].
Proof.
  intros _ Halts Hline. unfold fresh_scan, scan_line.
  cbn [while_exec]. unfold RegExp.exec. cbn [Nat.ltb Nat.leb Str.drop].
  now rewrite (search_two_colons _ _ _ Halts Hline).
Qed.

Lemma prefix_with_colon_needs_two_colons_witness :
  fresh_scan "src/a.ts" (RegExp.alternatives colon_prefixes)
    ["// TODO: fix"] 0 "// TODO: fix" = [].
Proof.
  apply prefix_with_colon_needs_two_colons; [reflexivity| |reflexivity].
  intros p [<-|[<-|[<-|[<-|[]]]]];
    [exists "TODO"|exists "FIXME"|exists "BUG"|exists "NOTE"]; reflexivity.
Defined.

Example two_colons_are_matched :
  map (fun c => (Comment.type c, Comment.content c))
    (extractComments "// TODO:: fix" "src/a.ts" colon_prefixes)
  = [("TODO:", "fix")].
Proof. reflexivity. Qed.

(** ** The order of the annotations *)

Lemma StronglySorted_app_le (l1 l2 : list nat) :
  StronglySorted le l1 -> StronglySorted le l2 ->
  (forall x y, In x l1 -> In y l2 -> x <= y) ->
  StronglySorted le (l1 ++ l2).
Proof.
  induction l1 as [|a l1 IH]; simpl; [auto|].
  intros H1 H2 H. apply StronglySorted_inv in H1 as [H1 Ha].
  constructor.
  - apply IH; auto.
  - apply Forall_app. split; [exact Ha|].
    apply Forall_forall. intros y Hy. apply list_elem_of_In in Hy. auto.
Qed.

Lemma StronglySorted_constant (l : list nat) n :
  (forall x, In x l -> x = n) -> StronglySorted le l.
Proof.
  induction l as [|a l IH]; intros H; constructor.
  - apply IH. intros x Hx. apply H. now right.
  - apply Forall_forall. intros y Hy. apply list_elem_of_In in Hy.
    rewrite (H a) by now left. rewrite (H y) by now right. reflexivity.
Qed.

Lemma lines_sorted_from filePath alts lines rest :
  forall k,
    StronglySorted le
      (map Comment.line
         (concat (imap (fun i => fresh_scan filePath alts lines (k + i)) rest)))
    /\
    forall n,
      In n (map Comment.line
              (concat (imap (fun i => fresh_scan filePath alts lines (k + i))
                         rest))) ->
      k + 1 <= n <= k + length rest.
Proof.
  induction rest as [|line rest IH]; intros k.
  - simpl. split; [constructor|intros n []].
  - cbn [imap concat length]. rewrite map_app.
    assert (forall n, In n (map Comment.line
                             (fresh_scan filePath alts lines (k + 0) line)) ->
                      n = k + 1) as Hhere.
    { intros n Hn. apply in_map_iff in Hn as (c & <- & Hc).
      apply fresh_scan_origin in Hc as (m & ->). simpl. lia. }
    assert (imap ((fun i => fresh_scan filePath alts lines (k + i)) ∘ S) rest
            = imap (fun i => fresh_scan filePath alts lines (S k + i)) rest)
      as -> by (apply imap_ext; intros i x _; simpl; f_equal; lia).
    destruct (IH (S k)) as [Hsorted Hrange]. split.
    + apply StronglySorted_app_le; [|exact Hsorted|].
      * now apply (StronglySorted_constant _ (k + 1)).
      * intros x y Hx Hy. apply Hhere in Hx. apply Hrange in Hy. lia.
    + intros n Hn. apply in_app_or in Hn as [Hn|Hn].
      * apply Hhere in Hn. simpl. lia.
      * apply Hrange in Hn. simpl. lia.
Qed.

(** X8: the annotations of a file come in the order of its lines: their
    line numbers never decrease along the list returned, and each lies
    between 1 and the number of lines. *)
Theorem annotations_follow_the_lines fileContent filePath prefixes :
  StronglySorted le
    (map Comment.line (extractComments fileContent filePath prefixes)) /\
  Forall (fun n => 1 <= n <= length (Str.split Str.LF fileContent))
    (map Comment.line (extractComments fileContent filePath prefixes)).
Proof.
  rewrite extractComments_by_line.
  destruct (lines_sorted_from filePath (RegExp.alternatives prefixes)
              (Str.split Str.LF fileContent) (Str.split Str.LF fileContent) 0)
    as [Hsorted Hrange].
  split; [exact Hsorted|].
  apply Forall_forall. intros n Hn. apply list_elem_of_In in Hn.
  apply Hrange in Hn. lia.
Qed.

(** ** The key names the file and the line *)

Lemma digit_index_digit n : (n < 64)%N -> digit_index (Buffer.digit n) = n.
Proof.
  intros Hn. rewrite <- (N2Nat.id n) in *.
  assert (N.to_nat n < 64) as Hk by lia. revert Hk.
  generalize (N.to_nat n). clear. intros k Hk.
  do 64 (destruct k as [|k]; [reflexivity|]). lia.
Qed.

Lemma digit_inj n m :
  (n < 64)%N -> (m < 64)%N -> Buffer.digit n = Buffer.digit m -> n = m.
Proof.
  intros Hn Hm H. apply (f_equal digit_index) in H.
  now rewrite !digit_index_digit in H.
Qed.

Lemma digit_not_pad n : (n < 64)%N -> Buffer.digit n <> Buffer.pad.
Proof.
  intros Hn H. apply (f_equal digit_index) in H.
  rewrite digit_index_digit in H by exact Hn. subst n. now vm_compute in Hn.
Qed.

Lemma land_shiftl_small hi lo k :
  (lo < 2 ^ k)%N -> N.land (N.shiftl hi k) lo = 0%N.
Proof.
  intros H. apply N.bits_inj. intros n. rewrite N.land_spec, N.bits_0.
  destruct (N.lt_ge_cases n k) as [Hn|Hn].
  - now rewrite N.shiftl_spec_low.
  - rewrite <- (N.mod_small lo (2 ^ k)) by exact H.
    rewrite N.mod_pow2_bits_high by exact Hn. apply andb_false_r.
Qed.

Lemma lor_shiftl_small hi lo k :
  (lo < 2 ^ k)%N -> N.lor (N.shiftl hi k) lo = (hi * 2 ^ k + lo)%N.
Proof.
  intros H. pose proof (land_shiftl_small hi lo k H) as Hland.
  rewrite <- N.lxor_lor, <- N.add_nocarry_lxor by exact Hland.
  now rewrite N.shiftl_mul_pow2.
Qed.

(** The four digits of three bytes, in arithmetic. *)
Lemma sextet_1 a : N.shiftr a 2 = (a / 4)%N.
Proof. apply (N.shiftr_div_pow2 a 2). Qed.

Lemma sextet_2 a b :
  (b < 256)%N ->
  N.lor (N.shiftl (N.land a 3) 4) (N.shiftr b 4)
  = (a mod 4 * 16 + b / 16)%N.
Proof.
  intros Hb. rewrite (N.shiftr_div_pow2 b 4).
  change 3%N with (N.ones 2). rewrite N.land_ones.
  rewrite lor_shiftl_small; [reflexivity|].
  change (2 ^ 4)%N with 16%N. apply N.Div0.div_lt_upper_bound. lia.
Qed.

Lemma sextet_3 b c :
  (c < 256)%N ->
  N.lor (N.shiftl (N.land b 15) 2) (N.shiftr c 6)
  = (b mod 16 * 4 + c / 64)%N.
Proof.
  intros Hc. rewrite (N.shiftr_div_pow2 c 6).
  change 15%N with (N.ones 4). rewrite N.land_ones.
  rewrite lor_shiftl_small; [reflexivity|].
  change (2 ^ 6)%N with 64%N. change (2 ^ 2)%N with 4%N.
  apply N.Div0.div_lt_upper_bound. lia.
Qed.

Lemma sextet_4 c : N.land c 63 = (c mod 64)%N.
Proof. change 63%N with (N.ones 6). apply N.land_ones. Qed.

Lemma sextet_2_alone a : N.shiftl (N.land a 3) 4 = (a mod 4 * 16)%N.
Proof.
  change 3%N with (N.ones 2). rewrite N.land_ones.
  apply (N.shiftl_mul_pow2 _ 4).
Qed.

Lemma sextet_3_alone b : N.shiftl (N.land b 15) 2 = (b mod 16 * 4)%N.
Proof.
  change 15%N with (N.ones 4). rewrite N.land_ones.
  apply (N.shiftl_mul_pow2 _ 2).
Qed.

Lemma string4_inj a b c d s a' b' c' d' s' :
  String a (String b (String c (String d s)))
  = String a' (String b' (String c' (String d' s'))) ->
  a = a' /\ b = b' /\ c = c' /\ d = d' /\ s = s'.
Proof. intros H. inversion H. auto. Qed.

(** Division and remainder by a constant, for [lia]. *)
Ltac Zify.zify_post_hook ::= Z.to_euclidean_division_equations.

Ltac sextet_bound :=
  repeat match goal with
         | E : @eq ascii _ _ |- _ => clear E
         end;
  lia.

Lemma first_byte x x' p p' :
  (x / 4 = x' / 4)%N -> (x mod 4 * 16 + p = x' mod 4 * 16 + p')%N ->
  (p < 16)%N -> (p' < 16)%N -> x = x' /\ p = p'.
Proof. intros. lia. Qed.

Lemma second_byte y y' q q' :
  (y / 16 = y' / 16)%N -> (y mod 16 * 4 + q = y' mod 16 * 4 + q')%N ->
  (q < 4)%N -> (q' < 4)%N -> y = y' /\ q = q'.
Proof. intros. lia. Qed.

Lemma third_byte z z' :
  (z / 64 = z' / 64)%N -> (z mod 64 = z' mod 64)%N -> z = z'.
Proof. intros. lia. Qed.

Lemma high_nibble y : (y < 256)%N -> (y / 16 < 16)%N.
Proof. intros. lia. Qed.

Lemma high_pair z : (z < 256)%N -> (z / 64 < 4)%N.
Proof. intros. lia. Qed.

Lemma toBase64_inj a :
  forall b,
    Forall (fun x => (x < 256)%N) a -> Forall (fun x => (x < 256)%N) b ->
    Buffer.toBase64 a = Buffer.toBase64 b -> a = b.
Proof.
  remember (length a) as n eqn:Hn. revert a Hn.
  induction n as [n IH] using lt_wf_ind. intros a -> b Ha Hb.
  destruct a as [|x [|y [|z a]]]; destruct b as [|x' [|y' [|z' b]]];
    cbn [Buffer.toBase64]; intros E; try discriminate E; try reflexivity;
    repeat match goal with
           | H : Forall _ (_ :: _) |- _ => apply Forall_cons in H as [? H]
           end;
    apply string4_inj in E as (E1 & E2 & E3 & E4 & Erest);
    rewrite ?sextet_2, ?sextet_3, ?sextet_1, ?sextet_4,
      ?sextet_2_alone, ?sextet_3_alone in * by assumption;
    try (exfalso; first
           [ symmetry in E3; apply digit_not_pad in E3; [exact E3|sextet_bound]
           | apply digit_not_pad in E3; [exact E3|sextet_bound]
           | symmetry in E4; apply digit_not_pad in E4; [exact E4|sextet_bound]
           | apply digit_not_pad in E4; [exact E4|sextet_bound] ]).
  - apply digit_inj in E1; [|sextet_bound..].
    apply digit_inj in E2; [|sextet_bound..].
    destruct (first_byte x x' 0 0) as [-> _];
      [exact E1|now rewrite !N.add_0_r|reflexivity|reflexivity|reflexivity].
  - apply digit_inj in E1; [|sextet_bound..].
    apply digit_inj in E2; [|sextet_bound..].
    apply digit_inj in E3; [|sextet_bound..].
    destruct (first_byte x x' (y / 16) (y' / 16)) as [-> Hy];
      [exact E1|exact E2|now apply high_nibble|now apply high_nibble|].
    destruct (second_byte y y' 0 0) as [-> _];
      [exact Hy|now rewrite !N.add_0_r|reflexivity|reflexivity|reflexivity].
  - apply digit_inj in E1; [|sextet_bound..].
    apply digit_inj in E2; [|sextet_bound..].
    apply digit_inj in E3; [|sextet_bound..].
    apply digit_inj in E4; [|sextet_bound..].
    destruct (first_byte x x' (y / 16) (y' / 16)) as [-> Hy];
      [exact E1|exact E2|now apply high_nibble|now apply high_nibble|].
    destruct (second_byte y y' (z / 64) (z' / 64)) as [-> Hz];
      [exact Hy|exact E3|now apply high_pair|now apply high_pair|].
    rewrite (third_byte z z' Hz E4).
    do 3 f_equal.
    apply (IH (length a)); [simpl; lia|reflexivity|assumption|assumption|].
    exact Erest.
Qed.

Lemma utf8_unit_cases c :
  (N_of_ascii c < 128 /\ Buffer.utf8_unit c = [N_of_ascii c])%N \/
  (128 <= N_of_ascii c /\
   exists hi lo,
     Buffer.utf8_unit c = [hi; lo] /\ 192 <= hi < 256 /\ 128 <= lo < 192 /\
     N_of_ascii c = (hi - 192) * 64 + (lo - 128))%N.
Proof.
  destruct c as [b0 b1 b2 b3 b4 b5 b6 [|]].
  - right. split; [destruct b0, b1, b2, b3, b4, b5, b6; vm_compute; discriminate|].
    destruct b0, b1, b2, b3, b4, b5, b6;
      (eexists; eexists; split; [vm_compute; reflexivity|];
       repeat split; vm_compute; congruence).
  - left. destruct b0, b1, b2, b3, b4, b5, b6; split; reflexivity.
Qed.

Lemma from_bytes s : Forall (fun x => (x < 256)%N) (Buffer.from s).
Proof.
  induction s as [|c s IH]; simpl; [constructor|].
  apply Forall_app. split; [|exact IH].
  destruct (utf8_unit_cases c) as [[Hc ->]|(_ & hi & lo & -> & Hhi & Hlo & _)].
  - constructor; [lia|constructor].
  - constructor; [lia|]. constructor; [lia|constructor].
Qed.

Lemma N_of_ascii_inj c d : N_of_ascii c = N_of_ascii d -> c = d.
Proof.
  intros H. rewrite <- (ascii_N_embedding c), <- (ascii_N_embedding d).
  now rewrite H.
Qed.

Lemma from_inj s : forall t, Buffer.from s = Buffer.from t -> s = t.
Proof.
  induction s as [|c s IH]; intros [|d t]; simpl.
  - reflexivity.
  - destruct (utf8_unit_cases d) as [[_ ->]|(_ & hi & lo & -> & _)];
      discriminate.
  - destruct (utf8_unit_cases c) as [[_ ->]|(_ & hi & lo & -> & _)];
      discriminate.
  - destruct (utf8_unit_cases c)
      as [[Hc ->]|(Hc & hi & lo & -> & Hhi & Hlo & Hn)];
    destruct (utf8_unit_cases d)
      as [[Hd ->]|(Hd & hi' & lo' & -> & Hhi' & Hlo' & Hn')];
    simpl; intros H.
    + injection H as Hcd Hst. apply N_of_ascii_inj in Hcd. subst d.
      f_equal. now apply IH.
    + injection H as Hcd Hst. exfalso. lia.
    + injection H as Hcd Hst. exfalso. lia.
    + injection H as H1 H2 Hst.
      assert (c = d) as -> by (apply N_of_ascii_inj; lia).
      f_equal. now apply IH.
Qed.

(** Line numbers are written in digits, and their text tells them apart. *)
Lemma uint_text_digits d :
  Str.every not_colon (NilEmpty.string_of_uint d) = true.
Proof. induction d; simpl; auto. Qed.

Lemma to_uint_not_nil n : Nat.to_uint n <> Decimal.Nil.
Proof.
  intros H. pose proof (Unsigned.of_to n) as Hn. rewrite H in Hn.
  simpl in Hn. subst n. discriminate H.
Qed.

Lemma of_nat_digits n : Str.every not_colon (Str.of_nat n) = true.
Proof.
  unfold Str.of_nat, NilZero.string_of_uint.
  destruct (Nat.to_uint n); [reflexivity|apply uint_text_digits..].
Qed.

Lemma of_nat_inj n m : Str.of_nat n = Str.of_nat m -> n = m.
Proof.
  unfold Str.of_nat. intros H. apply Unsigned.to_uint_inj.
  pose proof (NilZero.usu _ (to_uint_not_nil n)) as Hn.
  pose proof (NilZero.usu _ (to_uint_not_nil m)) as Hm.
  rewrite H in Hn. congruence.
Qed.

Lemma every_append f a b :
  Str.every f (a +:+ b) = Str.every f a && Str.every f b.
Proof.
  induction a as [|c a IH]; [reflexivity|].
  rewrite append_String. simpl. now rewrite IH, andb_assoc.
Qed.

(** A path, a colon and digits: the last colon tells where the path ends. *)
Lemma path_and_line_apart f1 f2 d1 d2 :
  Str.every not_colon d1 = true -> Str.every not_colon d2 = true ->
  f1 +:+ ":" +:+ d1 = f2 +:+ ":" +:+ d2 -> f1 = f2 /\ d1 = d2.
Proof.
  intros H1 H2. revert f2; induction f1 as [|c f1 IH]; intros [|c' f2];
    rewrite ?append_String, ?append_empty_l.
  - intros [= ->]. auto.
  - change (":" +:+ d1) with (String ":" d1). intros [= <- ->].
    rewrite every_append in H1. apply andb_prop in H1 as [_ H1].
    discriminate H1.
  - change (":" +:+ d2) with (String ":" d2). intros [= -> <-].
    rewrite every_append in H2. apply andb_prop in H2 as [_ H2].
    discriminate H2.
  - intros [= -> H]. apply IH in H as [-> ->]. auto.
Qed.

Lemma key_of_inj filePath1 index1 filePath2 index2 :
  key_of filePath1 index1 = key_of filePath2 index2 ->
  filePath1 = filePath2 /\ index1 = index2.
Proof.
  unfold key_of. intros H.
  apply toBase64_inj in H; [|apply from_bytes..].
  apply from_inj in H.
  apply path_and_line_apart in H as [-> H]; [|apply of_nat_digits..].
  apply of_nat_inj in H. split; [reflexivity|lia].
Qed.

(** X9: the key names the file and the line: two extracted annotations,
    from whatever files and prefixes, have the same key only if they have
    the same file and the same line. *)
Theorem same_key_same_place
    fileContent1 filePath1 prefixes1 c1 fileContent2 filePath2 prefixes2 c2 :
  In c1 (extractComments fileContent1 filePath1 prefixes1) ->
  In c2 (extractComments fileContent2 filePath2 prefixes2) ->
  Comment.key c1 = Comment.key c2 ->
  Comment.file c1 = Comment.file c2 /\ Comment.line c1 = Comment.line c2.
Proof.
  intros H1 H2.
  apply extractComments_origin in H1 as (i1 & m1 & _ & ->).
  apply extractComments_origin in H2 as (i2 & m2 & _ & ->).
  cbn [comment_of Comment.key Comment.file Comment.line].
  intros H. apply key_of_inj in H as [-> ->]. auto.
Qed.

Lemma same_key_same_place_witness :
  Comment.file (comment_of "src/a.ts" [sample_line_cr] 0
                  {| RegExp.group1 := "TODO"; RegExp.group2 := "x";
                     RegExp.matched := 7 |})
  = Comment.file (comment_of "src/a.ts" [sample_line_cr] 0
                    {| RegExp.group1 := "FIXME"; RegExp.group2 := "y";
                       RegExp.matched := 8 |}) /\
  Comment.line (comment_of "src/a.ts" [sample_line_cr] 0
                  {| RegExp.group1 := "TODO"; RegExp.group2 := "x";
                     RegExp.matched := 7 |})
  = Comment.line (comment_of "src/a.ts" [sample_line_cr] 0
                    {| RegExp.group1 := "FIXME"; RegExp.group2 := "y";
                       RegExp.matched := 8 |}).
Proof.
  apply (same_key_same_place sample_line_cr "src/a.ts" sample_prefixes _
           sample_line_cr "src/a.ts" sample_prefixes _).
  - vm_compute. left. reflexivity.
  - vm_compute. right. left. reflexivity.
  - reflexivity.
Defined.

(** ** Runs: what is read before anything is written *)

(** X10: the issues are fetched first, and a failure to fetch them ends
    the run there: nothing is listed, read or requested, the tracker is as
    it was, and the error's message, if it is an [Error], is reported. *)
Theorem fetch_failure_ends_the_run env st e :
  throws env (log st) GetIssues = Some e ->
  run env st
  = (reported e, {| tracker := tracker st; log := log st ++ [GetIssues] |}).
Proof.
  intros H. rewrite run_perform. unfold script. cbn [perform].
  rewrite H. reflexivity.
Qed.

Lemma fetch_failure_ends_the_run_witness :
  run env_offline empty_tracker
  = (Some "getaddrinfo ENOTFOUND api.github.com",
     {| tracker := tracker empty_tracker; log := [GetIssues] |}).
Proof.
  apply (fetch_failure_ends_the_run env_offline empty_tracker
           (ErrorObject "getaddrinfo ENOTFOUND api.github.com")).
  reflexivity.
Defined.

Lemma prefix_reaches_past (W : Call -> bool) (A B pre post : list Call) :
  A ++ B = pre ++ post ->
  (forall c, In c A -> W c = false) ->
  (exists c, In c pre /\ W c = true) ->
  forall a, In a A -> In a pre.
Proof.
  revert pre; induction A as [|a A IH]; intros pre Heq HA Hw x Hx;
    [destruct Hx|].
  destruct pre as [|p pre].
  - destruct Hw as (c & [] & _).
  - simpl in Heq. injection Heq as <- Heq.
    destruct Hx as [<-|Hx]; [now left|]. right.
    apply (IH pre Heq); [intros c Hc; apply HA; now right| |exact Hx].
    destruct Hw as (c & [<-|Hc] & Hwc); [|eauto].
    rewrite HA in Hwc by now left. discriminate.
Qed.

Lemma reads_keep_the_tracker (calls : list Call) tr :
  (forall c, In c calls -> is_write c = false) ->
  foldl (fun tr c => Tracker.apply c tr) tr calls = tr.
Proof.
  revert tr; induction calls as [|c calls IH]; intros tr H; [reflexivity|].
  simpl. rewrite IH by (intros d Hd; apply H; now right).
  specialize (H c (or_introl eq_refl)). now destruct c.
Qed.

(** The calls of a run: a part of its script, with the tracker the calls
    before the last one leave. *)
Lemma run_calls env st :
  exists calls post,
    log (snd (run env st)) = log st ++ calls /\
    script env (tracker st) = calls ++ post /\
    exists changing,
      tracker (snd (run env st))
      = foldl (fun tr c => Tracker.apply c tr) (tracker st) changing /\
      forall c, In c changing -> In c calls.
Proof.
  rewrite run_perform. cbn [snd].
  pose proof (perform_spec env (script env (tracker st)) st) as H.
  destruct (perform env (script env (tracker st)) st) as [[e|] st'].
  - destruct H as (pre & c & post & Hs & _ & _ & Hlog & Htr).
    exists (pre ++ [c]), post. split; [exact Hlog|].
    split; [now rewrite <- app_assoc|].
    exists pre. split; [exact Htr|]. intros d Hd. apply in_or_app. now left.
  - destruct H as (Hlog & _ & Htr).
    exists (script env (tracker st)), []. split; [exact Hlog|].
    split; [now rewrite app_nil_r|]. exists (script env (tracker st)). auto.
Qed.

(** X11: a run reads everything before it writes anything.  If its log
    gained a request that changes the tracker, the issues were fetched and
    every source file was read before; and if it gained none, the tracker
    is as it was. *)
Theorem reads_come_before_writes env st :
  exists calls,
    log (snd (run env st)) = log st ++ calls /\
    ((exists c, In c calls /\ is_write c = true) ->
     In GetIssues calls /\
     forall file, In file (sourceFiles_of env) -> In (ReadFile file) calls) /\
    ((forall c, In c calls -> is_write c = false) ->
     tracker (snd (run env st)) = tracker st).
Proof.
  destruct (run_calls env st)
    as (calls & post & Hlog & Hscript & changing & Htr & Hsub).
  exists calls. split; [exact Hlog|]. split.
  - intros Hw.
    assert (forall a,
              In a (GetIssues
                    :: ReadDir (getInput env "source-directory")
                         (extension_input env)
                    :: map ReadFile (sourceFiles_of env)) ->
              In a calls) as Hreads.
    { apply (prefix_reaches_past is_write _
               (plan (map issue_of (Tracker.open (tracker st)))
                  (found_in env (sourceFiles_of env))) calls post).
      - rewrite <- Hscript. unfold script. now rewrite <- !app_comm_cons.
      - intros c [<-|[<-|Hc]]; [reflexivity..|].
        apply in_map_iff in Hc as (file & <- & _). reflexivity.
      - exact Hw. }
    split.
    + apply Hreads. now left.
    + intros file Hfile. apply Hreads. right. right. now apply in_map.
  - intros Hquiet. rewrite Htr. apply reads_keep_the_tracker. auto.
Qed.

Example unreadable_file_keeps_the_tracker :
  tracker (snd (run env_unreadable empty_tracker)) = tracker empty_tracker.
Proof. reflexivity. Qed.

(** ** Runs: which issues are touched *)

Lemma filter_all {A} (f : A -> bool) (l : list A) :
  (forall x, In x l -> f x = true) -> List.filter f l = l.
Proof.
  induction l as [|x l IH]; simpl; [reflexivity|]. intros H.
  rewrite (H x) by now left. f_equal. apply IH. auto.
Qed.

(** X12: a run patches only issues it fetched, and never both updates and
    closes one: every update goes to a fetched issue that is not among the
    issues to close, and every request of the plan is a create, or an update
    or a close of the number of a fetched issue. *)
Theorem patches_go_to_fetched_issues existingIssues foundComments :
  (forall issue comment,
      In (issue, comment) (toUpdate existingIssues foundComments) ->
      In issue existingIssues /\
      ~ In issue (issuesToClose existingIssues foundComments)) /\
  (forall c,
      In c (plan existingIssues foundComments) ->
      match c with
      | PostIssue _ _ => True
      | PatchIssue n _ _ | PatchClosed n =>
          exists issue, In issue existingIssues /\ GitHubIssue.id issue = n
      | GetIssues | ReadDir _ _ | ReadFile _ => False
      end).
Proof.
  split.
  - intros issue comment H. apply in_toUpdate in H as [Hc Hf].
    apply findExisting_Some in Hf as [Hin Hkey]. split; [exact Hin|].
    intros Hclose. apply in_issuesToClose in Hclose as [_ Hno].
    now apply (Hno comment Hc).
  - intros c Hc. unfold plan in Hc. apply in_app_or in Hc as [Hc|Hc].
    + apply in_map_iff in Hc as (comment & <- & _). unfold call_for.
      destruct (findExisting existingIssues comment) as [issue|] eqn:Hf;
        [|exact I].
      apply findExisting_Some in Hf as [Hin _]. eauto.
    + apply in_map_iff in Hc as (issue & <- & Hin).
      apply in_issuesToClose in Hin as [Hin _]. eauto.
Qed.

Lemma never_throwing_run env st :
  (forall log c, throws env log c = None) ->
  log (snd (run env st)) = log st ++ script env (tracker st) /\
  tracker (snd (run env st))
  = foldl (fun tr c => Tracker.apply c tr) (tracker st)
      (script env (tracker st)).
Proof.
  intros Hquiet. rewrite run_perform. cbn [snd].
  pose proof (perform_spec env (script env (tracker st)) st) as H.
  destruct (perform env (script env (tracker st)) st) as [[e|] st'].
  - destruct H as (pre & c & post & _ & _ & Hc & _). now rewrite Hquiet in Hc.
  - destruct H as (Hlog & _ & Htr). auto.
Qed.

(** X13: a run that finds no annotation closes every issue it fetched.
    When the prefixes are plain, nothing throws and the source files hold
    no annotation (or there is no source file), the run requests the
    closing of each open issue, whatever its key, and leaves no issue
    open. *)
Theorem no_annotation_closes_every_issue env st :
  plain_prefixes (prefixes_input env) = true ->
  (forall log c, throws env log c = None) ->
  found_in env (sourceFiles_of env) = [] ->
  log (snd (run env st))
  = log st
    ++ GetIssues
       :: ReadDir (getInput env "source-directory") (extension_input env)
       :: map ReadFile (sourceFiles_of env)
    ++ map (fun issue => PatchClosed (ApiIssue.number issue))
         (Tracker.open (tracker st)) /\
  Tracker.open (tracker (snd (run env st))) = [].
Proof.
  intros _ Hquiet Hnone.
  destruct (never_throwing_run env st Hquiet) as [Hlog Htr].
  assert (plan (map issue_of (Tracker.open (tracker st))) []
          = map (fun issue => PatchClosed (GitHubIssue.id issue))
              (map issue_of (Tracker.open (tracker st)))) as Hplan.
  { unfold plan, issuesToClose. cbn [map app existsb negb].
    now rewrite filter_all. }
  split.
  - rewrite Hlog. unfold script. rewrite Hnone, Hplan, map_map. reflexivity.
  - rewrite Htr. unfold script. rewrite Hnone, Hplan.
    cbn [foldl Tracker.apply]. rewrite foldl_app.
    rewrite (reads_keep_the_tracker (map ReadFile _))
      by (intros c Hc; apply in_map_iff in Hc as (file & <- & _); reflexivity).
    destruct (Tracker.open (foldl _ _ _)) as [|a rest] eqn:Hopen;
      [reflexivity|].
    assert (In (entry a)
              (entries
                 (foldl (fun tr c => Tracker.apply c tr) (tracker st)
                    (map (fun issue => PatchClosed (GitHubIssue.id issue))
                       (map issue_of (Tracker.open (tracker st))))))) as He
        by (unfold entries; rewrite Hopen; now left).
    apply in_entries_closes in He as [He Hno].
    unfold entries in He. apply in_map_iff in He as (b & Hb & Hin).
    exfalso. apply (Hno (issue_of b)); [now apply in_map|].
    apply (f_equal fst) in Hb. simpl in Hb. simpl. congruence.
Qed.

Lemma no_annotation_closes_every_issue_witness :
  Tracker.open (tracker (snd (run env_no_sources tracker_with_issues))) = [].
Proof.
  refine (proj2 (no_annotation_closes_every_issue env_no_sources
                   tracker_with_issues _ _ _)); reflexivity.
Defined.

(** ** The key in the issue body *)



(** X15: a body without the text [Key: ] has the empty key, and the key
    read from any body holds no line terminator. *)
Theorem missing_marker_gives_empty_key body :
  (Str.includes "Key: " body = false -> parseIssueKey body = EmptyString) /\
  Str.every Str.is_dot (parseIssueKey body) = true.
Proof.
  split.
  - induction body as [|c body IH]; [reflexivity|].
    cbn [Str.includes parseIssueKey]. intros H.
    apply orb_false_elim in H as [-> H]. auto.
  - induction body as [|c body IH]; [reflexivity|].
    cbn [parseIssueKey].
    destruct (String.prefix "Key: " (String c body)); [|exact IH].
    apply every_take_while.
Qed.

Lemma missing_marker_gives_empty_key_witness :
  parseIssueKey (ApiIssue.body foreign_issue) = EmptyString.
Proof.
  apply (proj1 (missing_marker_gives_empty_key (ApiIssue.body foreign_issue))).
  reflexivity.
Defined.

(** X16: reconciliation is idempotent as long as the keys come back: after
    a run with plain prefixes in which nothing threw, on a tracker whose
    open issues have distinct numbers, with annotations whose keys all come
    back from their generated bodies, reconciling the same annotations
    against the issues then open creates nothing and closes nothing. *)
Theorem second_run_only_updates env st :
  plain_prefixes (prefixes_input env) = true ->
  (forall log c, throws env log c = None) ->
  well_numbered (tracker st) ->
  (forall c, In c (found_in env (sourceFiles_of env)) ->
             parseIssueKey (description_of c) = Comment.key c) ->
  toCreate (map issue_of (Tracker.open (tracker (snd (run env st)))))
    (found_in env (sourceFiles_of env)) = [] /\
  issuesToClose (map issue_of (Tracker.open (tracker (snd (run env st)))))
    (found_in env (sourceFiles_of env)) = [].
Proof.
  intros _ Hquiet Hwf Hrt.
  exact (idempotent_when_keys_round_trip env st Hquiet Hwf Hrt).
Qed.

Lemma second_run_only_updates_witness :
  toCreate
    (map issue_of (Tracker.open (tracker (snd (run env_sample empty_tracker)))))
    (found_in env_sample (sourceFiles_of env_sample)) = [].
Proof.
  refine (proj1 (second_run_only_updates env_sample empty_tracker _ _ _ _)).
  - reflexivity.
  - reflexivity.
  - split; [constructor|intros issue []].
  - intros c [<-|[]]. reflexivity.
Defined.

(** ** Lines and fields *)

Lemma split_free sep s :
  Str.every (not_sep sep) s = true -> Str.split sep s = [s].
Proof.
  induction s as [|c s IH]; [reflexivity|]. simpl.
  intros H. apply andb_prop in H as [Hc Hs].
  unfold not_sep in Hc. apply negb_true_iff in Hc. rewrite Hc.
  now rewrite IH.
Qed.

Lemma split_append sep x rest :
  Str.every (not_sep sep) x = true ->
  Str.split sep (x +:+ String sep rest) = x :: Str.split sep rest.
Proof.
  induction x as [|c x IH].
  - intros _. rewrite append_empty_l. simpl. now rewrite Ascii.eqb_refl.
  - rewrite append_String. simpl. intros H. apply andb_prop in H as [Hc Hx].
    unfold not_sep in Hc. apply negb_true_iff in Hc. rewrite Hc.
    now rewrite IH.
Qed.

Lemma split_join sep xs :
  xs <> [] ->
  (forall x, In x xs -> Str.every (not_sep sep) x = true) ->
  Str.split sep (Str.join (String sep EmptyString) xs) = xs.
Proof.
  induction xs as [|x xs IH]; [congruence|]. intros _ H.
  destruct xs as [|y xs].
  - simpl. apply split_free. apply H. now left.
  - change (Str.join (String sep EmptyString) (x :: y :: xs))
      with (x +:+ String sep EmptyString
              +:+ Str.join (String sep EmptyString) (y :: xs)).
    change (String sep EmptyString +:+ ?r) with (String sep r).
    rewrite split_append by (apply H; now left).
    f_equal. apply IH; [discriminate|]. intros z Hz. apply H. now right.
Qed.

Lemma split_pieces_free sep s x :
  In x (Str.split sep s) -> Str.every (not_sep sep) x = true.
Proof.
  revert x; induction s as [|c s IH]; simpl; intros x.
  - intros [<-|[]]. reflexivity.
  - destruct (Ascii.eqb c sep) eqn:Hc.
    + intros [<-|Hx]; [reflexivity|auto].
    + destruct (Str.split sep s) as [|h t].
      * intros [<-|[]]. simpl. unfold not_sep. now rewrite Hc.
      * intros [<-|Hx].
        -- simpl. unfold not_sep at 1. rewrite Hc. apply IH. now left.
        -- apply IH. now right.
Qed.

Lemma in_slice {A} (xs : list A) a b x : In x (slice xs a b) -> In x xs.
Proof.
  unfold slice. intros H. apply list_elem_of_In in H.
  apply list_elem_of_In. eapply subseteq_drop, subseteq_take. exact H.
Qed.

(** X17: the context kept in [message] can be taken apart again: split at
    the line feeds, the message of an extracted annotation gives back the
    lines of its window, so it has between 1 and 11 lines. *)
Theorem message_lines_are_the_window fileContent filePath prefixes c :
  In c (extractComments fileContent filePath prefixes) ->
  Str.split Str.LF (Comment.message c)
  = context_window (Str.split Str.LF fileContent) (Comment.line c - 1) /\
  1 <= length (Str.split Str.LF (Comment.message c)) <= 11.
Proof.
  intros Hc. apply extractComments_origin in Hc as (index & m & Hindex & ->).
  cbn [comment_of Comment.message Comment.line].
  replace (index + 1 - 1) with index by lia.
  pose proof (context_window_length _ index Hindex) as Hlen.
  assert (Str.split Str.LF
            (Str.join Str.nl
               (context_window (Str.split Str.LF fileContent) index))
          = context_window (Str.split Str.LF fileContent) index) as ->.
  { apply split_join.
    - intros Hnil. rewrite Hnil in Hlen. simpl in Hlen. lia.
    - intros x Hx. apply in_slice in Hx.
      now apply (split_pieces_free Str.LF fileContent). }
  split; [reflexivity|]. rewrite Hlen. lia.
Qed.

Lemma message_lines_are_the_window_witness :
  Str.split Str.LF (Comment.message sample_comment)
  = context_window (Str.split Str.LF sample_line)
      (Comment.line sample_comment - 1).
Proof.
  refine (proj1 (message_lines_are_the_window sample_line "src/a.ts"
                   sample_prefixes sample_comment _)).
  rewrite sample_comment_extracted. left. reflexivity.
Defined.

(** X18: the prefixes are the fields of the input between its commas, each
    trimmed: for fields without a comma, the input made of them joined by
    commas gives back the trimmed fields, one prefix a field, empty ones
    too. *)
Theorem prefixes_are_the_trimmed_fields env fields :
  fields <> [] ->
  (forall x, In x fields -> Str.every (not_sep ","%char) x = true) ->
  getInput env "comment-prefixes" = Str.join "," fields ->
  prefixes_input env = map Str.trim fields.
Proof.
  intros Hne Hfree Hinput. unfold prefixes_input. rewrite Hinput.
  now rewrite (split_join ","%char fields Hne Hfree).
Qed.

Lemma prefixes_are_the_trimmed_fields_witness :
  prefixes_input env_sample = ["TODO"; "FIXME"].
Proof.
  apply (prefixes_are_the_trimmed_fields env_sample ["TODO"; " FIXME"]).
  - discriminate.
  - intros x [<-|[<-|[]]]; reflexivity.
  - reflexivity.
Defined.

(** X19: the context of an annotation shows the annotated line: the line
    the annotation stands on is a line of its window, the sixth one, or
    earlier when fewer than five lines precede it. *)
Theorem window_holds_the_annotated_line fileContent filePath prefixes c :
  In c (extractComments fileContent filePath prefixes) ->
  exists line,
    Str.split Str.LF fileContent !! (Comment.line c - 1) = Some line /\
    context_window (Str.split Str.LF fileContent) (Comment.line c - 1)
      !! Nat.min (Comment.line c - 1) 5
    = Some line.
Proof.
  intros Hc. apply extractComments_origin in Hc as (index & m & Hindex & ->).
  cbn [comment_of Comment.line]. replace (index + 1 - 1) with index by lia.
  destruct (lookup_lt_is_Some_2 (Str.split Str.LF fileContent) index Hindex)
    as (line & Hline).
  exists line. split; [exact Hline|].
  rewrite context_window_clipped by exact Hindex.
  rewrite lookup_take_lt by lia. rewrite lookup_drop.
  now replace (index - Nat.min index 5 + Nat.min index 5) with index by lia.
Qed.

Lemma window_holds_the_annotated_line_witness :
  exists line,
    Str.split Str.LF ten_lines !! 6 = Some line /\
    context_window (Str.split Str.LF ten_lines) 6 !! 5 = Some line.
Proof.
  apply (window_holds_the_annotated_line ten_lines "a.ts" ["TODO"]
           {| Comment.type := "TODO"; Comment.content := "g";
              Comment.file := "a.ts"; Comment.line := 7;
              Comment.message :=
                Str.join Str.nl
                  ["b"; "c"; "d"; "e"; "f"; "TODO: g"; "h"; "i"; "j"];
              Comment.key := "YS50czo3" |}).
  vm_compute. left. reflexivity.
Defined.

(** ** The requests of a run and the decisions of reconciliation *)

Lemma filter_map_none {A} (f : Call -> bool) (g : A -> Call) (l : list A) :
  (forall x, f (g x) = false) -> List.filter f (map g l) = [].
Proof.
  intros H. induction l as [|x l IH]; simpl; [reflexivity|]. now rewrite H.
Qed.

Lemma filter_map_every {A} (f : Call -> bool) (g : A -> Call) (l : list A) :
  (forall x, f (g x) = true) -> List.filter f (map g l) = map g l.
Proof.
  intros H. induction l as [|x l IH]; simpl; [reflexivity|].
  now rewrite H, IH.
Qed.

Lemma updates_of_calls existingIssues foundComments :
  List.filter is_update (map (call_for existingIssues) foundComments)
  = map update_of (toUpdate existingIssues foundComments).
Proof.
  induction foundComments as [|comment rest IH]; [reflexivity|].
  cbn [map toUpdate]. unfold call_for at 1.
  destruct (findExisting existingIssues comment);
    cbn [List.filter is_update map]; rewrite IH; reflexivity.
Qed.

Lemma creates_of_calls existingIssues foundComments :
  List.filter is_create (map (call_for existingIssues) foundComments)
  = map create_of (toCreate existingIssues foundComments).
Proof.
  induction foundComments as [|comment rest IH]; [reflexivity|].
  cbn [map toCreate]. unfold call_for at 1.
  destruct (findExisting existingIssues comment);
    cbn [List.filter is_create map]; rewrite IH; reflexivity.
Qed.

Lemma closes_of_calls existingIssues foundComments :
  List.filter is_close (map (call_for existingIssues) foundComments) = [].
Proof.
  apply filter_map_none. intros comment. unfold call_for.
  now destruct (findExisting existingIssues comment).
Qed.

Lemma requests_of_script env tr :
  List.filter is_update (script env tr)
  = map update_of
      (toUpdate (map issue_of (Tracker.open tr))
         (found_in env (sourceFiles_of env))) /\
  List.filter is_create (script env tr)
  = map create_of
      (toCreate (map issue_of (Tracker.open tr))
         (found_in env (sourceFiles_of env))) /\
  List.filter is_close (script env tr)
  = map close_of
      (issuesToClose (map issue_of (Tracker.open tr))
         (found_in env (sourceFiles_of env))).
Proof.
  unfold script, plan. cbn [List.filter is_update is_create is_close].
  rewrite !List.filter_app.
  rewrite updates_of_calls, creates_of_calls, closes_of_calls.
  rewrite (filter_map_none is_update ReadFile) by (intros ?; reflexivity).
  rewrite (filter_map_none is_create ReadFile) by (intros ?; reflexivity).
  rewrite (filter_map_none is_close ReadFile) by (intros ?; reflexivity).
  rewrite (filter_map_none is_update
             (fun issue => PatchClosed (GitHubIssue.id issue)))
    by (intros ?; reflexivity).
  rewrite (filter_map_none is_create
             (fun issue => PatchClosed (GitHubIssue.id issue)))
    by (intros ?; reflexivity).
  rewrite (filter_map_every is_close
             (fun issue => PatchClosed (GitHubIssue.id issue)))
    by (intros ?; reflexivity).
  rewrite !app_nil_r. auto.
Qed.

Lemma findExisting_first existingIssues comment found :
  findExisting existingIssues comment = Some found ->
  exists before after,
    existingIssues = before ++ found :: after /\
    (forall issue, In issue before ->
                   GitHubIssue.key issue <> Comment.key comment) /\
    GitHubIssue.key found = Comment.key comment.
Proof.
  unfold findExisting.
  induction existingIssues as [|issue rest IH]; simpl; [discriminate|].
  destruct (String.eqb (GitHubIssue.key issue) (Comment.key comment)) eqn:Hk.
  - intros [= <-]. exists [], rest. apply String.eqb_eq in Hk.
    split; [reflexivity|]. split; [intros ? []|exact Hk].
  - intros Hf. destruct (IH Hf) as (before & after & -> & Hb & Hfk).
    exists (issue :: before), after. split; [reflexivity|].
    split; [|exact Hfk].
    intros other [<-|Hin]; [now apply String.eqb_neq|auto].
Qed.

(** C6: the three action sets of reconciliation are what a run requests,
    and they partition the keys.  In a run with plain prefixes in which
    nothing throws, the updates requested are those of the matched pairs,
    the creations those of the unmatched annotations and the closings those
    of the issues no annotation matches, each in order.  For every list of
    issues and of annotations, the keys updated and created are the
    annotation keys, the keys updated and closed are the issue keys, and
    the three key sets are pairwise disjoint. *)
Theorem C6_partition :
  (forall env st,
      plain_prefixes (prefixes_input env) = true ->
      (forall log c, throws env log c = None) ->
      let existingIssues := map issue_of (Tracker.open (tracker st)) in
      let foundComments := found_in env (sourceFiles_of env) in
      exists calls,
        log (snd (run env st)) = log st ++ calls /\
        List.filter is_update calls
        = map update_of (toUpdate existingIssues foundComments) /\
        List.filter is_create calls
        = map create_of (toCreate existingIssues foundComments) /\
        List.filter is_close calls
        = map close_of (issuesToClose existingIssues foundComments)) /\
  (forall existingIssues foundComments,
      matchedKeys existingIssues foundComments
        ∪ createKeys existingIssues foundComments
      = annotationKeys foundComments /\
      matchedKeys existingIssues foundComments
        ∪ closeKeys existingIssues foundComments
      = issueKeys existingIssues /\
      matchedKeys existingIssues foundComments
        ## createKeys existingIssues foundComments /\
      matchedKeys existingIssues foundComments
        ## closeKeys existingIssues foundComments /\
      createKeys existingIssues foundComments
        ## closeKeys existingIssues foundComments).
Proof.
  split.
  - intros env st _ Hquiet existingIssues foundComments.
    exists (script env (tracker st)).
    split; [apply (never_throwing_run env st Hquiet)|].
    apply requests_of_script.
  - apply key_sets_partition.
Qed.

Lemma C6_partition_witness :
  exists calls,
    log (snd (run env_sample tracker_with_issues))
    = log tracker_with_issues ++ calls /\
    List.filter is_update calls = [update_of (sample_issue, sample_comment)] /\
    List.filter is_create calls = [] /\
    List.filter is_close calls = [close_of (issue_of foreign_issue)].
Proof.
  exact (proj1 C6_partition env_sample tracker_with_issues eq_refl
           (fun _ _ => eq_refl)).
Defined.

(** C7, as stated: every fetched issue that carries the key of a found
    annotation is updated.  Two open issues carry the key of the sample
    annotation: the run updates the first and sends nothing to the
    second. *)
Lemma C7_counterexample :
  ~ updates_each_issue_with_the_key env_sample twin_tracker.
Proof.
  intros H.
  assert (In (update_of
                (issue_of
                   (ApiIssue.mk 2 (title_of sample_comment)
                      (description_of sample_comment)),
                 sample_comment))
            (log (snd (run env_sample twin_tracker)))) as Hin.
  { apply H.
    - right. left. reflexivity.
    - left. reflexivity.
    - reflexivity. }
  vm_compute in Hin.
  repeat (destruct Hin as [Hin|Hin]; [discriminate Hin|]).
  exact Hin.
Qed.

(** C7, amended: in a run with plain prefixes in which nothing throws,
    each found annotation gets exactly one request, made behind the reading
    of the files and before the closings, in the order of the annotations.
    For an annotation whose key is the key of a fetched issue this request
    is an update of the first fetched issue that carries the key (the issue
    itself when the keys of the fetched issues are distinct), with the
    title and body generated from the annotation; nothing compares them
    with the text of the issue. *)
Theorem C7_update_always env st :
  plain_prefixes (prefixes_input env) = true ->
  (forall log c, throws env log c = None) ->
  let existingIssues := map issue_of (Tracker.open (tracker st)) in
  let foundComments := found_in env (sourceFiles_of env) in
  log (snd (run env st))
  = log st
    ++ GetIssues
       :: ReadDir (getInput env "source-directory") (extension_input env)
       :: map ReadFile (sourceFiles_of env)
    ++ map (call_for existingIssues) foundComments
    ++ map close_of (issuesToClose existingIssues foundComments) /\
  forall comment issue,
    In comment foundComments ->
    In issue existingIssues ->
    GitHubIssue.key issue = Comment.key comment ->
    exists before first after,
      existingIssues = before ++ first :: after /\
      (forall other, In other before ->
                     GitHubIssue.key other <> Comment.key comment) /\
      GitHubIssue.key first = Comment.key comment /\
      (NoDup (map GitHubIssue.key existingIssues) -> first = issue) /\
      call_for existingIssues comment
      = PatchIssue (GitHubIssue.id first)
          (title_of comment) (description_of comment).
Proof.
  intros _ Hquiet existingIssues foundComments. split.
  - destruct (never_throwing_run env st Hquiet) as [-> _]. reflexivity.
  - intros comment issue _ Hin Hkey.
    destruct (findExisting_is_Some _ _ _ Hin Hkey) as (first & Hf).
    destruct (findExisting_first _ _ _ Hf) as (before & after & Hsplit & Hb & Hk).
    exists before, first, after. repeat split; auto.
    + intros Hnd.
      apply (NoDup_map_eq GitHubIssue.key existingIssues);
        [exact Hnd| |exact Hin|congruence].
      rewrite Hsplit. apply in_or_app. right. now left.
    + unfold call_for. now rewrite Hf.
Qed.

Lemma C7_update_always_witness :
  log (snd (run env_sample tracker_with_issues))
  = [GetIssues; ReadDir "src" ".ts"; ReadFile "src/a.ts";
     PatchIssue 1 (GitHubIssue.title sample_issue)
       (GitHubIssue.body sample_issue);
     PatchClosed 7].
Proof.
  exact (proj1 (C7_update_always env_sample tracker_with_issues eq_refl
                  (fun _ _ => eq_refl))).
Defined.
